(** * colima: the fsnotify daemon process

    A shallow embedding of [daemon/process/fsnotify/fsnotify.go]: the
    process state, the readiness gate, the directory walk that registers
    watch targets, the event aggregation loop and the dispatcher.

    Go code runs here in a small monad that threads the receiver
    ([*fsnotifyProcess]) and writes every externally visible action to a
    trace, each action paired with the receiver as it was at that moment.
    What the environment decides (the result of a [select], of a system
    call, of a guest command) is an input of the model. *)

From Stdlib Require Import String Ascii List ZArith Bool Lia.
Import ListNotations.
Set Warnings "-register-all".
Open Scope string_scope.
Open Scope Z_scope.
Open Scope list_scope.

(** ** Go values *)

(** A Go [error].  [SkipDir] is the sentinel [filepath.SkipDir], which
    [fs.WalkDir] compares by identity; [ErrNew] is an error made from a
    fixed message, [ErrFmt] is [fmt.Errorf] with string arguments and
    [ErrWrap] is [fmt.Errorf] whose last verb is [%w]. *)
Inductive error : Type :=
| SkipDir
| ErrNew (msg : string)
| ErrFmt (fmt : string) (args : list string)
| ErrWrap (fmt : string) (args : list string) (inner : error).

(** An argument of a logging call. *)
Inductive Arg : Type :=
| AStr (s : string)
| AInt (n : Z)
| AErr (e : error).

Inductive Level : Type := TraceLevel | ErrorLevel.

(** [fsnotify.Op] is a bit mask (uint32); the constants are those of the
    fsnotify library. *)
Module Op.
Definition Create : Z := Z.shiftl 1 0.
Definition Write : Z := Z.shiftl 1 1.
Definition Remove : Z := Z.shiftl 1 2.
Definition Rename : Z := Z.shiftl 1 3.
Definition Chmod : Z := Z.shiftl 1 4.
End Op.

(** [fsnotify.Event]. *)
Record Event : Type := mkEvent { Name : string; Op : Z }.

(** The part of [environment.GuestActions] this package calls. *)
Record GuestActions : Type := mkGuest {
  RunQuiet : list string -> option error
}.

(** [type fsnotifyProcess struct].  [guest] is a nil interface until
    [Start] stores one.  The embedded mutex only makes each access of
    [alive] atomic; an access is one step of the model. *)
Record fsnotifyProcess : Type := mkProcess {
  guest : option GuestActions;
  dirs : list string;
  alive : bool
}.

(** [New]: [&fsnotifyProcess{}]. *)
Definition New : fsnotifyProcess :=
  {| guest := None; dirs := []; alive := false |}.

Definition set_guest (g : GuestActions) (f : fsnotifyProcess) :=
  {| guest := Some g; dirs := dirs f; alive := alive f |}.
Definition set_dirs (ds : list string) (f : fsnotifyProcess) :=
  {| guest := guest f; dirs := ds; alive := alive f |}.
Definition set_alive (b : bool) (f : fsnotifyProcess) :=
  {| guest := guest f; dirs := dirs f; alive := b |}.

(** A mount of the instance configuration: [CleanPath] either fails or
    gives the canonical host path. *)
Record Mount : Type := mkMount { CleanPath : error + string }.

(** ** Actions and the monad *)

(** A goroutine started with [go]. *)
Inductive Task : Type :=
| TaskDispatch (events : list Event)
| TaskTouch (file : string).

Inductive Effect : Type :=
| Log (lvl : Level) (fmt : string) (args : list Arg)
| LimaInstance                       (* limautil.Instance() *)
| LimaInstanceConfig                 (* limautil.InstanceConfig() *)
| MountCleanPath (m : Mount)         (* mount.CleanPath() *)
| NewWatcher                         (* fsnotify.NewWatcher() *)
| WatcherAdd (path : string)         (* watcher.Add(path) *)
| WatcherClose                       (* the deferred watcher.Close() *)
| FsStat (dir : string)              (* fs.Stat(os.DirFS(dir), ".") *)
| Visit (dir path : string)          (* fs.WalkDir calls its function on path *)
| FsReadDir (dir path : string)      (* fs.ReadDir(os.DirFS(dir), path) *)
| OsReadDir (path : string)          (* os.ReadDir(path) *)
| StoreAlive (b : bool)              (* f.alive = b, under the lock *)
| Go (t : Task)                      (* go ... *)
| GuestRunQuiet (args : list string) (* f.guest.RunQuiet(args...) *).

(** One entry of the trace: the action and the receiver when it happened. *)
Definition Snap : Type := (Effect * fsnotifyProcess)%type.
Definition Trace : Type := list Snap.

Definition effects (t : Trace) : list Effect := map fst t.

(** How a call ends: it returns, it panics, or it is still waiting in a
    [select] for which the environment supplied no further outcome. *)
Inductive Res (A : Type) : Type :=
| Done (a : A)
| Panic
| Blocked.
Arguments Done {A} a.
Arguments Panic {A}.
Arguments Blocked {A}.

Definition M (A : Type) : Type :=
  fsnotifyProcess -> (Res A * fsnotifyProcess * Trace).

Definition ret {A} (a : A) : M A := fun f => (Done a, f, []).

Definition bind {A B} (m : M A) (k : A -> M B) : M B :=
  fun f =>
    match m f with
    | (Done a, f1, t1) =>
        match k a f1 with
        | (r, f2, t2) => (r, f2, t1 ++ t2)
        end
    | (Panic, f1, t1) => (Panic, f1, t1)
    | (Blocked, f1, t1) => (Blocked, f1, t1)
    end.

Notation "x <- m ;; k" := (bind m (fun x => k))
  (at level 61, m at next level, right associativity).
Notation "m ;; k" := (bind m (fun _ => k))
  (at level 61, right associativity).

Definition emit (e : Effect) : M unit := fun f => (Done tt, f, [(e, f)]).
Definition panic {A} : M A := fun f => (Panic, f, []).
Definition blocked {A} : M A := fun f => (Blocked, f, []).
Definition get : M fsnotifyProcess := fun f => (Done f, f, []).
Definition modify (g : fsnotifyProcess -> fsnotifyProcess) : M unit :=
  fun f => (Done tt, g f, []).

(** [defer]: the cleanup runs when the body returns or panics. *)
Definition defer {A} (cleanup : M unit) (body : M A) : M A :=
  fun f =>
    match body f with
    | (Blocked, f1, t1) => (Blocked, f1, t1)
    | (r, f1, t1) =>
        match cleanup f1 with
        | (_, f2, t2) => (r, f2, t1 ++ t2)
        end
    end.

(** [for _, x := range xs { body }]. *)
Fixpoint forEach {A} (xs : list A) (body : A -> M unit) : M unit :=
  match xs with
  | [] => ret tt
  | x :: rest => body x ;; forEach rest body
  end.

Definition tracef (fmt : string) (args : list Arg) : M unit :=
  emit (Log TraceLevel fmt args).
Definition errorf (fmt : string) (args : list Arg) : M unit :=
  emit (Log ErrorLevel fmt args).
Definition go (t : Task) : M unit := emit (Go t).

(** [f.alive = b] between [f.Lock()] and [f.Unlock()]. *)
Definition store_alive (b : bool) : M unit :=
  modify (set_alive b) ;; emit (StoreAlive b).

Definition run {A} (m : M A) (f : fsnotifyProcess) : Res A := fst (fst (m f)).
Definition final {A} (m : M A) (f : fsnotifyProcess) : fsnotifyProcess :=
  snd (fst (m f)).
Definition trace {A} (m : M A) (f : fsnotifyProcess) : Trace := snd (m f).

(** ** Liveness *)

(** [func (f *fsnotifyProcess) Alive(ctx context.Context) error]. *)
Definition Alive (f : fsnotifyProcess) : option error :=
  if alive f then None else Some (ErrNew "not running").

(** ** Dispatcher *)

(** [func (f *fsnotifyProcess) Touch(file string) error]. *)
Definition Touch (file : string) : M (option error) :=
  f <- get ;;
  match guest f with
  | None => panic
  | Some g =>
      emit (GuestRunQuiet ["touch"; file]) ;;
      ret (RunQuiet g ["touch"; file])
  end.

(** [func (f *fsnotifyProcess) Dispatch(events []fsnotify.Event)]. *)
Definition Dispatch (events : list Event) : M unit :=
  let l := Z.of_nat (length events) in
  if l =? 0 then ret tt
  else
    events <-
      (if 10 <? l then
         tracef "fsnotify events more than 10 (%d), discarding the extra %d"
                [AInt l; AInt (l - 10)] ;;
         ret (firstn 10 events)
       else ret events) ;;
    forEach events (fun ev =>
      tracef "%s modified, touching..." [AStr (Name ev)] ;;
      go (TaskTouch (Name ev))).

(** What a goroutine does once it runs. *)
Definition runTask (t : Task) : M unit :=
  match t with
  | TaskDispatch events => Dispatch events
  | TaskTouch file => Touch file ;; ret tt
  end.

(** The goroutines a trace starts, in the order they are started. *)
Fixpoint spawned (es : list Effect) : list Task :=
  match es with
  | [] => []
  | Go t :: rest => t :: spawned rest
  | _ :: rest => spawned rest
  end.

(** The guest commands a trace runs. *)
Fixpoint guestCalls (es : list Effect) : list (list string) :=
  match es with
  | [] => []
  | GuestRunQuiet args :: rest => args :: guestCalls rest
  | _ :: rest => guestCalls rest
  end.

(** The log lines of a trace. *)
Fixpoint logged (es : list Effect) : list (Level * string * list Arg) :=
  match es with
  | [] => []
  | Log lvl fmt args :: rest => (lvl, fmt, args) :: logged rest
  | _ :: rest => logged rest
  end.

(** The batch as dispatched: the events for which [Dispatch] starts a
    touch, read off the goroutines it starts. *)
Definition dispatched (events : list Event) (f : fsnotifyProcess) : list Task :=
  spawned (effects (trace (Dispatch events) f)).

(** ** The host file system *)

(** What the walk sees of a directory tree.  A directory carries the
    entries [ReadDir] returns for it (sorted by name, as [ReadDir] sorts
    them) and the error [ReadDir] returns with them, if any.  A symbolic
    link carries the entries of the directory it points to; [ReadDir] of
    its parent reports the link itself, never the target. *)
Inductive node : Type :=
| File (name : string)
| Symlink (name : string) (target : list node)
| Dir (name : string) (entries : list node) (err : option error).

(** [fs.FileMode] bits. *)
Module Mode.
Definition ModeDir : Z := Z.shiftl 1 31.
Definition ModeSymlink : Z := Z.shiftl 1 27.
Definition ModePerm : Z := 511.   (* 0777 *)
(** [func (m FileMode) Perm() FileMode]. *)
Definition Perm (m : Z) : Z := Z.land m ModePerm.
End Mode.

(** [fs.DirEntry]: [Name], [IsDir] and [Type]. *)
Definition EntryName (d : node) : string :=
  match d with
  | File n => n
  | Symlink n _ => n
  | Dir n _ _ => n
  end.

Definition IsDir (d : node) : bool :=
  match d with
  | Dir _ _ _ => true
  | _ => false
  end.

Definition EntryType (d : node) : Z :=
  match d with
  | File _ => 0
  | Symlink _ _ => Mode.ModeSymlink
  | Dir _ _ _ => Mode.ModeDir
  end.

(** The [FileInfo] of [fs.Stat(os.DirFS(dir), ".")] is named ["."]. *)
Definition rootEntry (d : node) : node :=
  match d with
  | File _ => File "."
  | Symlink _ t => Symlink "." t
  | Dir _ es err => Dir "." es err
  end.

(** [strings.HasPrefix(s, prefix)]. *)
Definition HasPrefix (s prefix : string) : bool := String.prefix prefix s.

(** [strings.HasSuffix] and [strings.TrimSuffix]. *)
Definition HasSuffix (s suffix : string) : bool :=
  let n := String.length s in
  let m := String.length suffix in
  (m <=? n)%nat && String.eqb (substring (n - m) m s) suffix.

Definition TrimSuffix (s suffix : string) : string :=
  if HasSuffix s suffix
  then substring 0 (String.length s - String.length suffix) s
  else s.

(** [path.Join(name, child)] as [fs.WalkDir] uses it: [name] is a clean
    slash-separated path and [child] one file name. *)
Definition path_Join (name child : string) : string :=
  if String.eqb name "." then child else name ++ "/" ++ child.

(** [filepath.Join(parent, dir)] on clean arguments. *)
Definition filepath_Join (parent dir : string) : string :=
  if String.eqb parent "" then dir
  else if HasSuffix parent "/" then parent ++ dir
  else parent ++ "/" ++ dir.

(** ** The environment *)

(** The outcome of one [select] of the readiness gate. *)
Inductive GateSelect : Type :=
| GateCtxDone                          (* case <-ctx.Done() *)
| GateAfter (inst : error + bool)      (* case <-after, and what
                                          limautil.Instance() then reports:
                                          an error, or i.Running() *).

(** The outcome of one [select] of the collection loop; [None] is a
    receive from a closed channel ([ok == false]). *)
Inductive LoopSelect : Type :=
| RecvEvent (ev : option Event)        (* case ev, ok := <-watcher.Events *)
| RecvError (err : option error)       (* case err, ok := <-watcher.Errors *)
| TimerFired                           (* case <-after *)
| CtxDone                              (* case <-ctx.Done() *).

(** The value [ctx.Value(CtxKeyGuest())] holds. *)
Inductive CtxValue : Type :=
| CtxAbsent
| CtxOther
| CtxGuest (g : GuestActions).

Record Env : Type := mkEnv {
  ctxValue : CtxValue;
  gateSelects : list GateSelect;
  instanceConfig : error + list Mount;  (* c.MountsOrDefault() on success *)
  newWatcher : option error;
  statRoot : string -> error + node;    (* fs.Stat(os.DirFS(dir), ".") *)
  addResult : string -> option error;   (* watcher.Add(path) *)
  loopSelects : list LoopSelect
}.

(** The type assertion [.(environment.GuestActions)]. *)
Definition asGuest (v : CtxValue) : option GuestActions :=
  match v with
  | CtxGuest g => Some g
  | _ => None
  end.

(** ** fs.WalkDir *)

(** [fs.WalkDirFunc]: the entry is [nil] when the root cannot be
    stat'ed. *)
Definition WalkDirFunc : Type :=
  string -> option node -> option error -> M (option error).

(** The test [err == SkipDir && d.IsDir()] after which the walk goes on
    as if the function had returned [nil]. *)
Definition skipped (r : option error) (d : node) : option error :=
  match r with
  | Some SkipDir => if IsDir d then None else r
  | _ => r
  end.

(** [walkDir] of [io/fs]: the function is called on the entry; a
    directory is then read, the function is called a second time when
    the read fails, and the entries read are walked in order.  [SkipDir]
    from an entry ends the loop over its siblings. *)
Fixpoint walkDir (dir : string) (fn : WalkDirFunc) (name : string) (d : node)
  {struct d} : M (option error) :=
  emit (Visit dir name) ;;
  r <- fn name (Some d) None ;;
  match r, d with
  | None, Dir _ entries rerr =>
      emit (FsReadDir dir name) ;;
      r <- match rerr with
           | Some e => emit (Visit dir name) ;; fn name (Some d) (Some e)
           | None => ret None
           end ;;
      match r with
      | Some _ => ret (skipped r d)
      | None =>
          (fix loop (ds : list node) : M (option error) :=
             match ds with
             | [] => ret None
             | d1 :: rest =>
                 r <- walkDir dir fn (path_Join name (EntryName d1)) d1 ;;
                 match r with
                 | None => loop rest
                 | Some SkipDir => ret None
                 | Some e => ret (Some e)
                 end
             end) entries
      end
  | _, _ => ret (skipped r d)
  end.

(** The loop of [walkDir] over the entries read. *)
Fixpoint walkEntries (dir : string) (fn : WalkDirFunc) (name : string)
  (ds : list node) : M (option error) :=
  match ds with
  | [] => ret None
  | d1 :: rest =>
      r <- walkDir dir fn (path_Join name (EntryName d1)) d1 ;;
      match r with
      | None => walkEntries dir fn name rest
      | Some SkipDir => ret None
      | Some e => ret (Some e)
      end
  end.

(** [fs.WalkDir(os.DirFS(dir), ".", fn)]. *)
Definition WalkDir (env : Env) (dir : string) (fn : WalkDirFunc)
  : M (option error) :=
  emit (FsStat dir) ;;
  r <- match statRoot env dir with
       | inl e => emit (Visit dir ".") ;; fn "." None (Some e)
       | inr info => walkDir dir fn "." (rootEntry info)
       end ;;
  match r with
  | Some SkipDir => ret None
  | _ => ret r
  end.

(** ** The watcher *)

(** The test of the walk function for a hidden entry:
    [d.Name() != "." && strings.HasPrefix(d.Name(), ".")]. *)
Definition hiddenEntry (name : string) : bool :=
  negb (String.eqb name ".") && HasPrefix name ".".

(** The function literal [watch] hands to [fs.WalkDir]. *)
Definition watchFn (env : Env) : WalkDirFunc :=
  fun path d err =>
    match err with
    | Some e =>
        errorf "" [AErr (ErrWrap "error in walkdir for '%s': %w" [path] e)]
    | None => ret tt
    end ;;
    match d with
    | None => panic       (* d.Name() on a nil fs.DirEntry *)
    | Some d =>
        if hiddenEntry (EntryName d) then
          tracef "fsnotify: skipped hidden dir '%s'" [AStr path] ;;
          ret (Some SkipDir)
        else if IsDir d then
          emit (WatcherAdd path) ;;
          match addResult env path with
          | Some e =>
              errorf "fsnotify: error adding '%s' to watch directories: %v"
                     [AStr path; AErr e] ;;
              ret None
          | None =>
              tracef "fsnotify: added %s to watch directories" [AStr path] ;;
              ret None
          end
        else ret None
    end.

(** [for _, dir := range f.dirs] of [watch]: each root is walked; an
    error of a walk ends [watch]. *)
Fixpoint walkRoots (env : Env) (ds : list string) : M (option error) :=
  match ds with
  | [] => ret None
  | dir :: rest =>
      r <- WalkDir env dir (watchFn env) ;;
      match r with
      | Some e => ret (Some (ErrWrap "error in directory walk: %w" [] e))
      | None => walkRoots env rest
      end
  end.

(** [ev.Op&fsnotify.Write == fsnotify.Write]. *)
Definition isWrite (ev : Event) : bool :=
  Z.land (Op ev) Op.Write =? Op.Write.

(** The two nested [for] loops of [watch]: [events] is the batch of the
    current window; the timer hands it to a new [Dispatch] goroutine and
    the outer loop starts over with an empty batch. *)
Fixpoint collect (selects : list LoopSelect) (events : list Event)
  : M (option error) :=
  match selects with
  | [] => blocked
  | RecvEvent None :: _ => ret (Some (ErrNew "watcher channel closed"))
  | RecvEvent (Some ev) :: rest =>
      tracef "fsnotify: got event: %s, file: %s" [AInt (Op ev); AStr (Name ev)] ;;
      collect rest (if isWrite ev then events ++ [ev] else events)
  | RecvError None :: _ => ret (Some (ErrNew "watcher channel closed"))
  | RecvError (Some e) :: rest =>
      tracef "fsnotify: watch error: %v" [AErr e] ;;
      collect rest events
  | TimerFired :: rest =>
      go (TaskDispatch events) ;;
      collect rest []
  | CtxDone :: _ => ret None
  end.

(** [func (f *fsnotifyProcess) watch(ctx context.Context) error]. *)
Definition watch (env : Env) : M (option error) :=
  emit NewWatcher ;;
  match newWatcher env with
  | Some e => ret (Some (ErrWrap "error creating watcher: %w" [] e))
  | None =>
      defer (emit WatcherClose)
        (f <- get ;;
         r <- walkRoots env (dirs f) ;;
         match r with
         | Some e => ret (Some e)
         | None =>
             store_alive true ;;
             collect (loopSelects env) []
         end)
  end.

(** ** Start *)

(** [func (f *fsnotifyProcess) waitForLima(ctx context.Context)]. *)
Fixpoint waitForLima (selects : list GateSelect) : M unit :=
  tracef "waiting for Lima..." [] ;;
  match selects with
  | [] => blocked
  | GateCtxDone :: _ => ret tt
  | GateAfter inst :: rest =>
      emit LimaInstance ;;
      match inst with
      | inr true => ret tt
      | _ => waitForLima rest
      end
  end.

(** [for _, mount := range c.MountsOrDefault()] of [Start]. *)
Fixpoint resolveMounts (mounts : list Mount) : M (option error) :=
  match mounts with
  | [] => ret None
  | mount :: rest =>
      emit (MountCleanPath mount) ;;
      match CleanPath mount with
      | inl e => ret (Some (ErrWrap "error retrieving mount path: %w" [] e))
      | inr p =>
          modify (fun f => set_dirs (dirs f ++ [TrimSuffix p "/"]) f) ;;
          resolveMounts rest
      end
  end.

(** [func (f *fsnotifyProcess) Start(ctx context.Context) error]. *)
Definition Start (env : Env) : M (option error) :=
  match asGuest (ctxValue env) with
  | None => ret (Some (ErrNew "environment.GuestAction missing in context"))
  | Some g =>
      modify (set_guest g) ;;
      waitForLima (gateSelects env) ;;
      emit LimaInstanceConfig ;;
      match instanceConfig env with
      | inl _ => ret (Some (ErrNew "error retrieving config"))
      | inr mounts =>
          r <- resolveMounts mounts ;;
          match r with
          | Some e => ret (Some e)
          | None => watch env
          end
      end
  end.

(** ** traverseDir *)

(** [os.ReadDir(current)], where [d] is what lies at [current]. *)
Definition osReadDir (d : node) : list node * option error :=
  match d with
  | Dir _ entries err => (entries, err)
  | Symlink _ target => (target, None)
  | File _ => ([], Some (ErrNew "not a directory"))
  end.

(** [func traverseDir(watcher *fsnotify.Watcher, parent, dir string) error];
    [d] is the entry named [dir] in [parent].  No function of the package
    calls it. *)
Fixpoint traverseDir (env : Env) (parent : string) (d : node) {struct d}
  : M (option error) :=
  let current := filepath_Join parent (EntryName d) in
  let body (children : list node) (loop : list node -> M (option error)) :=
    emit (WatcherAdd current) ;;
    match addResult env current with
    | Some e =>
        tracef ""
          [AErr (ErrWrap "fsnotify: error adding '%s' to watch directories: %w"
                         [current] e)]
    | None =>
        tracef "fsnotify: added %s to watch directories" [AStr current]
    end ;;
    loop children in
  let loop :=
    fix loop (cs : list node) : M (option error) :=
      match cs with
      | [] => ret None
      | child :: rest =>
          if negb (IsDir child) then loop rest
          else if HasPrefix (EntryName child) "." then
            tracef ""
              [AErr (ErrFmt "skipping hidden child directory '%s' of '%s'"
                            [EntryName child; current])] ;;
            loop rest
          else if Z.land (Mode.Perm (EntryType child)) Mode.ModeSymlink
                  =? Mode.ModeSymlink then
            tracef ""
              [AErr (ErrFmt "skipping symlink directory '%s' of '%s'"
                            [EntryName child; current])] ;;
            loop rest
          else
            r <- traverseDir env current child ;;
            match r with
            | Some e =>
                ret (Some (ErrWrap
                             "error traversing child directory '%s' of '%s': %w"
                             [EntryName child; current] e))
            | None => loop rest
            end
      end in
  emit (OsReadDir current) ;;
  match d with
  | Dir _ children None => body children loop
  | Symlink _ target => body target loop
  | _ =>
      match snd (osReadDir d) with
      | Some e =>
          errorf ""
            [AErr (ErrWrap "error retrieving dirlist for '%s': %w" [current] e)] ;;
          ret None
      | None => ret None
      end
  end.

(** ** Observations on traces *)

(** The guest commands the goroutines of [Dispatch] run, each goroutine
    taken in the order it is started. *)
Definition touchCalls (events : list Event) (f : fsnotifyProcess)
  : list (list string) :=
  flat_map (fun t => guestCalls (effects (trace (runTask t) f)))
           (dispatched events f).

(** A store to the alive flag. *)
Definition isStore (e : Effect) : bool :=
  match e with
  | StoreAlive _ => true
  | _ => false
  end.


Definition isTraversal (e : Effect) : bool :=
  match e with
  | FsStat _ | Visit _ _ | FsReadDir _ _ | OsReadDir _ | WatcherAdd _ => true
  | _ => false
  end.

(** The arrivals of every window the timer closes: all notifications
    received between two expiries of the timer, of whatever kind, in the
    order they arrive.  The window in progress when the loop ends is not
    listed. *)
Fixpoint windows (selects : list LoopSelect) (arrived : list Event)
  : list (list Event) :=
  match selects with
  | [] => []
  | RecvEvent (Some ev) :: rest => windows rest (arrived ++ [ev])
  | RecvError (Some _) :: rest => windows rest arrived
  | TimerFired :: rest => arrived :: windows rest []
  | RecvEvent None :: _ | RecvError None :: _ | CtxDone :: _ => []
  end.

(** [Reached root p d]: the entry [d] lies at the walk path [p] below
    [root], and every entry on the way from [root] down to the parent of
    [d] is a real directory (a [Dir], not a symbolic link) that the
    hidden test lets through. *)
Inductive Reached (root : node) : string -> node -> Prop :=
| Reached_root : Reached root "." root
| Reached_entry p n es err c :
    Reached root p (Dir n es err) ->
    hiddenEntry n = false ->
    In c es ->
    Reached root (path_Join p (EntryName c)) c.

(** A path that is not empty and does not begin with a slash: a file
    name, or a relative path. *)
Definition plainName (p : string) : bool :=
  match p with
  | EmptyString => false
  | String c _ => negb (Ascii.eqb c "/")
  end.

(** Every entry below [d] that [ReadDir] reports has such a name. *)
Fixpoint plainNames (d : node) : bool :=
  match d with
  | File _ => true
  | Symlink _ _ => true
  | Dir _ es _ =>
      forallb (fun c => plainName (EntryName c) && plainNames c) es
  end.

(** What the walk hands to [watcher.Add] is a relative path. *)
Definition addsRelative (e : Effect) : Prop :=
  match e with
  | WatcherAdd p => plainName p = true
  | _ => True
  end.

(** Induction over [node] with the hypothesis for every entry of a
    directory and of a link target. *)
Section node_induction.
Variable P : node -> Prop.
Hypothesis HFile : forall n, P (File n).
Hypothesis HSymlink : forall n t, Forall P t -> P (Symlink n t).
Hypothesis HDir : forall n es err, Forall P es -> P (Dir n es err).

Fixpoint node_ind_nested (d : node) : P d :=
  let all :=
    fix all (ds : list node) : Forall P ds :=
      match ds with
      | [] => Forall_nil P
      | d1 :: rest => Forall_cons d1 (node_ind_nested d1) (all rest)
      end in
  match d with
  | File n => HFile n
  | Symlink n t => HSymlink n t (all t)
  | Dir n es err => HDir n es err (all es)
  end.
End node_induction.

(** [quiet P m]: [m] leaves the alive flag as it finds it, and every
    action of [m] satisfies [P]. *)
Definition quiet (P : Effect -> Prop) {A} (m : M A) : Prop :=
  forall f,
    alive (final m f) = alive f /\
    Forall (fun s => alive (snd s) = alive f /\ P (fst s)) (trace m f).

(** Actions other than a store of the alive flag, and actions that are
    neither a store nor part of the directory walk. *)
Definition notStore (e : Effect) : Prop := isStore e = false.
Definition afterStore (e : Effect) : Prop :=
  isStore e = false /\ isTraversal e = false.

(** The part of a run before the alive flag is stored: [Alive] fails at
    every moment of it. *)
Definition Before (t : Trace) : Prop :=
  Forall (fun s => Alive (snd s) = Some (ErrNew "not running") /\
                   isStore (fst s) = false) t.

(** The part of a run from the store of the alive flag on, and the
    process [ff] it ends with: either the flag is never stored, or the
    part starts with the one store of [true], after which [Alive]
    succeeds, nothing is walked or registered and the flag is not stored
    again. *)
Definition After (t : Trace) (ff : fsnotifyProcess) : Prop :=
  (t = [] /\ Alive ff = Some (ErrNew "not running")) \/
  (exists f1 tl,
     t = (StoreAlive true, f1) :: tl /\
     Alive f1 = None /\
     Forall (fun s => Alive (snd s) = None /\
                      isStore (fst s) = false /\
                      isTraversal (fst s) = false) tl /\
     Alive ff = None).

(** [flips m]: started while the flag is false, a run of [m] is a
    [Before] part followed by an [After] part. *)
Definition flips {A} (m : M A) : Prop :=
  forall f,
    alive f = false ->
    exists pre post,
      trace m f = pre ++ post /\ Before pre /\ After post (final m f).

(** What the walk of [root] may do: it visits only entries that are
    [Reached], and registers and reads only real directories among them
    that the hidden test lets through. *)
Definition walkOk (root : node) (e : Effect) : Prop :=
  match e with
  | Visit _ p => exists d, Reached root p d
  | WatcherAdd p | FsReadDir _ p =>
      exists n es err,
        Reached root p (Dir n es err) /\ hiddenEntry n = false
  | StoreAlive _ => False
  | _ => True
  end.

(** ** Sample inputs *)

Module Sample.
Definition guestOk : GuestActions := mkGuest (fun _ => None).
Definition guestFailing : GuestActions :=
  mkGuest (fun _ => Some (ErrNew "exit status 1")).

Definition write (name : string) : Event := mkEvent name Op.Write.

Definition twelve : list Event :=
  map write ["/src/1"; "/src/2"; "/src/3"; "/src/4"; "/src/5"; "/src/6";
             "/src/7"; "/src/8"; "/src/9"; "/src/10"; "/src/11"; "/src/12"].

Definition started : fsnotifyProcess :=
  {| guest := Some guestFailing; dirs := ["/Users/u"]; alive := true |}.

(** A root with a hidden file next to a source directory. *)
Definition treeHiddenFile : node :=
  Dir "u" [File ".gitignore"; Dir "src" [Dir "pkg" [] None] None] None.

(** A root with a hidden directory, a link to a directory and a source
    directory. *)
Definition treeMixed : node :=
  Dir "u" [Dir ".git" [Dir "objects" [] None] None;
           Symlink "lnk" [Dir "x" [] None];
           Dir "src" [Dir "pkg" [] None] None] None.

(** A root whose entries cannot be read. *)
Definition treeUnreadable : node :=
  Dir "u" [] (Some (ErrNew "permission denied")).

Definition env (v : CtxValue) (gate : list GateSelect) (t : node)
  (loop : list LoopSelect) : Env :=
  {| ctxValue := v;
     gateSelects := gate;
     instanceConfig := inr [mkMount (inr "/Users/u/")];
     newWatcher := None;
     statRoot := fun _ => inr t;
     addResult := fun _ => None;
     loopSelects := loop |}.


(** The guest is running at the first poll; three notifications arrive
    in the first window. *)
Definition envRunning : Env :=
  env (CtxGuest guestOk) [GateAfter (inr true)] treeMixed
      [RecvEvent (Some (write "/src/a.go"));
       RecvEvent (Some (mkEvent "/src/b.go" Op.Create));
       RecvEvent (Some (mkEvent "/src/c.go" (Z.lor Op.Write Op.Chmod)));
       TimerFired; CtxDone].

Definition envNoGuest : Env :=
  env CtxOther [GateAfter (inr true)] treeMixed [CtxDone].

Definition envHiddenFile : Env :=
  env (CtxGuest guestOk) [GateAfter (inr true)] treeHiddenFile [CtxDone].

Definition envUnreadable : Env :=
  env (CtxGuest guestOk) [GateAfter (inr true)] treeUnreadable [CtxDone].


(** Only [/Users/u] exists. *)
Definition envMissingRoot : Env :=
  {| ctxValue := CtxGuest guestOk;
     gateSelects := [GateAfter (inr true)];
     instanceConfig := inr [mkMount (inr "/Users/u/");
                            mkMount (inr "/Volumes/gone");
                            mkMount (inr "/tmp/x")];
     newWatcher := None;
     statRoot := fun d =>
       if String.eqb d "/Users/u" then inr treeMixed
       else inl (ErrNew "no such file or directory");
     addResult := fun _ => None;
     loopSelects := [CtxDone] |}.
End Sample.

(** ** Further observations *)

(** A select of the gate that keeps [waitForLima] in its loop: the timer
    fired and the instance query failed or reported a guest that is not
    running. *)
Definition notReady (s : GateSelect) : bool :=
  match s with
  | GateAfter (inr true) => false
  | GateAfter _ => true
  | GateCtxDone => false
  end.

(** A select of the collection loop that ends [watch]: a receive from a
    closed channel, or cancellation. *)
Definition endsLoop (s : LoopSelect) : bool :=
  match s with
  | RecvEvent None | RecvError None | CtxDone => true
  | _ => false
  end.

(** What [watch] returns for a select that ends the loop. *)
Definition loopResult (s : LoopSelect) : option error :=
  match s with
  | CtxDone => None
  | _ => Some (ErrNew "watcher channel closed")
  end.


(** [emits P m]: every action of [m] satisfies [P]. *)
Definition emits (P : Effect -> Prop) {A} (m : M A) : Prop :=
  forall f, Forall (fun s => P (fst s)) (trace m f).

Definition notClose (e : Effect) : Prop := e <> WatcherClose.

(** No entry below [d] is hidden without being a directory: no hidden
    file and no hidden link. *)
Fixpoint noHiddenFiles (d : node) : bool :=
  match d with
  | File _ => true
  | Symlink _ _ => true
  | Dir _ es _ =>
      forallb (fun c =>
                 (negb (hiddenEntry (EntryName c)) || IsDir c)
                 && noHiddenFiles c) es
  end.

(** The loop of [traverseDir] over the children read. *)
Fixpoint traverseChildren (env : Env) (current : string) (cs : list node)
  : M (option error) :=
  match cs with
  | [] => ret None
  | child :: rest =>
      if negb (IsDir child) then traverseChildren env current rest
      else if HasPrefix (EntryName child) "." then
        tracef ""
          [AErr (ErrFmt "skipping hidden child directory '%s' of '%s'"
                        [EntryName child; current])] ;;
        traverseChildren env current rest
      else if Z.land (Mode.Perm (EntryType child)) Mode.ModeSymlink
              =? Mode.ModeSymlink then
        tracef ""
          [AErr (ErrFmt "skipping symlink directory '%s' of '%s'"
                        [EntryName child; current])] ;;
        traverseChildren env current rest
      else
        r <- traverseDir env current child ;;
        match r with
        | Some e =>
            ret (Some (ErrWrap
                         "error traversing child directory '%s' of '%s': %w"
                         [EntryName child; current] e))
        | None => traverseChildren env current rest
        end
  end.

(** [Traversed top p d]: the directory [d] lies at the path [p] when
    [traverseDir] starts at [top], which lies at [p0]; every directory
    on the way down from [top] to the parent of [d] can be read, and
    every one below [top] down to [d] has a name without a leading dot. *)
Inductive Traversed (p0 : string) (top : node) : string -> node -> Prop :=
| Traversed_top : Traversed p0 top p0 top
| Traversed_child p n cs c :
    Traversed p0 top p (Dir n cs None) ->
    In c cs ->
    IsDir c = true ->
    HasPrefix (EntryName c) "." = false ->
    Traversed p0 top (filepath_Join p (EntryName c)) c.

(** What [traverseDir] may do below [top]: it registers and reads only
    directories that are [Traversed], and never logs that it skips a
    link. *)
Definition traverseOk (p0 : string) (top : node) (e : Effect) : Prop :=
  match e with
  | WatcherAdd p => exists n cs, Traversed p0 top p (Dir n cs None)
  | OsReadDir p => exists d, Traversed p0 top p d
  | Log _ _ [AErr (ErrFmt fmt _)] =>
      fmt <> "skipping symlink directory '%s' of '%s'"
  | _ => True
  end.

(** An action of [watch]: the creation or the closing of the watcher,
    the walk, a registration, or the store of the alive flag. *)
Definition isWatchWork (e : Effect) : bool :=
  match e with
  | NewWatcher | WatcherClose => true
  | _ => isTraversal e || isStore e
  end.

(** The roots a trace stats. *)
Fixpoint statted (es : list Effect) : list string :=
  match es with
  | [] => []
  | FsStat d :: rest => d :: statted rest
  | _ :: rest => statted rest
  end.

Definition notStat (e : Effect) : Prop :=
  match e with
  | FsStat _ => False
  | _ => True
  end.

Definition notWatchWork (e : Effect) : Prop := isWatchWork e = false.

(** A mount whose path cleans to [p]. *)
Definition mountAt (p : string) : Mount := mkMount (inr p).

(** ** Kubernetes: the k3s and MetalLB installers *)

(** What a queued step can ask of the guest, the host and the embedded
    files: every answer is an input of the model.  [vmDownload] is
    [downloader.Download(host, guest, url, path)]; [tmplParse] and
    [tmplExecute] are [template.Parse] and [Template.Execute] of
    [text/template], the template being known by its text. *)
Record VM : Type := mkVM {
  vmRun : list string -> option error;
  vmWrite : string -> string -> option error;
  vmDownload : string -> string -> option error;
  embeddedRead : string -> error + string;
  tmplParse : string -> option error;
  tmplExecute : string -> list (string * string) -> error + string
}.

(** What a step does when it runs; a warning carries the fields of the
    logger it is written to. *)
Inductive VMEffect : Type :=
| VRun (args : list string)
| VWrite (path bytes : string)
| VDownload (url path : string)
| VWarn (fields : list (string * string)) (args : list Arg).

(** A function literal handed to the chain. *)
Definition Action : Type := VM -> list VMEffect * option error.

(** The calls on [*cli.ActiveCommandChain] and on the logger while the
    installers run, in the order they are made; the chain itself is not
    among the sources, so it is known here by the calls it receives. *)
Inductive ChainCall : Type :=
| ChainStage (s : string)
| ChainAdd (f : Action)
| ChainRetry (stage : string) (interval count : Z) (f : Z -> Action)
| LogInfo (fields : list (string * string)) (args : list string).

(** The fields of [config.Kubernetes] the installers read;
    [NodeLabels] is a map, given here in the order [range] visits it. *)
Record AdditionalServicesConfig : Type := mkAdditional {
  InstallMetalLB : bool;
  MetalLBAddressPool : string
}.

Record Kubernetes : Type := mkKubernetes {
  Version : string;
  Ingress : bool;
  ServiceLB : bool;
  NodeLabels : list (string * string);
  AdditionalServices : AdditionalServicesConfig
}.

(** [guest.Run(args...)] and [downloader.Download(host, guest, url, path)]
    as steps. *)
Definition guestRun (args : list string) : Action :=
  fun vm => ([VRun args], vmRun vm args).

Definition download (url path : string) : Action :=
  fun vm => ([VDownload url path], vmDownload vm url path).

(** [time.Second], in nanoseconds. *)
Definition Second : Z := 1000000000.

Definition metallbVersion : string := "v0.13.9".

(** The function literal of [InstallMetallb] that renders the embedded
    configuration and writes it to the guest. *)
Definition renderMetallbConfig (metallbConfigPath cidrBlock : string) : Action :=
  fun vm =>
    let availableData := [("IpAddressRange", cidrBlock)] in
    match embeddedRead vm "metallb/config.yaml" with
    | inl err =>
        ([], Some (ErrWrap "error reading embedded metallb config: %w" [] err))
    | inr install =>
        match tmplParse vm install with
        | Some err =>
            ([], Some (ErrWrap "error parsing embedded metallb config: %w" [] err))
        | None =>
            match tmplExecute vm install availableData with
            | inl err =>
                ([], Some (ErrWrap "error parsing embedded metallb config: %w"
                                   [] err))
            | inr bytes =>
                ([VWrite metallbConfigPath bytes],
                 vmWrite vm metallbConfigPath bytes)
            end
        end
    end.

(** [func InstallMetallb(host, guest, a, cidrBlock)]. *)
Definition InstallMetallb (cidrBlock : string) (a : list ChainCall)
  : list ChainCall :=
  let metallbConfigPath := "/tmp/metallb-config.yaml" in
  let downloadPath := "/tmp/metallb-native.yaml" in
  let url := ("https://raw.githubusercontent.com/metallb/metallb/"
              ++ metallbVersion ++ "/config/manifests/metallb-native.yaml")%string in
  a ++ [ChainStage "installing MetalLB";
        ChainRetry "" (Second * 5) 30 (fun _ => download url downloadPath);
        ChainRetry "" (Second * 5) 30
          (fun _ => guestRun ["kubectl"; "apply"; "-f"; downloadPath]);
        ChainAdd (renderMetallbConfig metallbConfigPath cidrBlock);
        ChainRetry "" (Second * 5) 30
          (fun _ => guestRun ["kubectl"; "apply"; "-f"; metallbConfigPath])].

(** The function literals of [installK3sCache] that load the images:
    a failure is logged as two warnings and not returned. *)
Definition loadImages (log : list (string * string)) (args : list string)
  : Action :=
  fun vm =>
    match vmRun vm args with
    | Some err =>
        ([VRun args;
          VWarn log [AErr (ErrWrap "error loading oci images: %w" [] err)];
          VWarn log
            [AStr "startup may delay a bit as images will be pulled from oci registry"]],
         None)
    | None => ([VRun args], None)
    end.

Section K3s.
(** [containerd.Name] and [docker.Name]: constants of packages that are
    not among the sources. *)
Variable containerdName : string.
Variable dockerName : string.

(** [func installK3sBinary(host, guest, a, conf)]; [goArch] is
    [guest.Arch().GoArch()]. *)
Definition installK3sBinary (goArch : string) (conf : Kubernetes)
  (a : list ChainCall) : list ChainCall :=
  let downloadPath := "/tmp/k3s" in
  let url := ("https://github.com/k3s-io/k3s/releases/download/"
              ++ Version conf ++ "/k3s")%string in
  let url := if String.eqb goArch "arm64" then (url ++ "-arm64")%string else url in
  a ++ [ChainAdd (download url downloadPath);
        ChainAdd (guestRun ["sudo"; "install"; downloadPath; "/usr/local/bin/k3s"])].

(** [func installK3sCache(host, guest, a, log, containerRuntime, conf)]. *)
Definition installK3sCache (goArch : string) (log : list (string * string))
  (containerRuntime : string) (conf : Kubernetes) (a : list ChainCall)
  : list ChainCall :=
  let imageTar := ("k3s-airgap-images-" ++ goArch ++ ".tar")%string in
  let imageTarGz := (imageTar ++ ".gz")%string in
  let downloadPathTar := ("/tmp/" ++ imageTar)%string in
  let downloadPathTarGz := ("/tmp/" ++ imageTarGz)%string in
  let url := ("https://github.com/k3s-io/k3s/releases/download/"
              ++ Version conf ++ "/" ++ imageTarGz)%string in
  let airGapDir := "/var/lib/rancher/k3s/agent/images/" in
  let a :=
    a ++ [ChainAdd (download url downloadPathTarGz);
          ChainAdd (guestRun ["gzip"; "-f"; "-d"; downloadPathTarGz]);
          ChainAdd (guestRun ["sudo"; "mkdir"; "-p"; airGapDir]);
          ChainAdd (guestRun ["sudo"; "cp"; downloadPathTar; airGapDir])] in
  if String.eqb containerRuntime containerdName then
    a ++ [ChainStage "loading oci images";
          ChainAdd (loadImages log
                      ["sudo"; "ctr"; "-n"; "k8s.io"; "images"; "import";
                       "--all-platforms"; downloadPathTar])]
  else if String.eqb containerRuntime dockerName then
    a ++ [ChainStage "loading oci images";
          ChainAdd (loadImages log
                      ["sudo"; "docker"; "load"; "-i"; downloadPathTar])]
  else a.

(** [for key, value := range conf.NodeLabels] of [installK3sCluster]:
    the logger gains a field and the arguments a label per entry. *)
Fixpoint addNodeLabels (labels : list (string * string))
  (log : list (string * string)) (args : list string)
  : list (string * string) * list string :=
  match labels with
  | [] => (log, args)
  | (key, value) :: rest =>
      addNodeLabels rest (log ++ [(key, value)])
        (args ++ ["--node-label"; (key ++ "=" ++ value)%string])
  end.

(** The arguments [installK3sCluster] builds for [k3s-install.sh];
    [ipAddress] is [limautil.IPAddress(config.CurrentProfile().ID)]. *)
Definition k3sArgs (containerRuntime : string) (conf : Kubernetes)
  (ipAddress : string) : list string :=
  let args := ["--write-kubeconfig-mode"; "644";
               "--resolv-conf"; "/etc/resolv.conf"] in
  let args := if negb (Ingress conf) then args ++ ["--disable"; "traefik"]
              else args in
  let args := if ServiceLB conf then args ++ ["--disable"; "servicelb"]
              else args in
  let args := if String.eqb ipAddress "127.0.0.1"
              then args ++ ["--flannel-iface"; "eth0"]
              else args ++ ["--bind-address"; ipAddress]
                        ++ ["--advertise-address"; ipAddress]
                        ++ ["--flannel-iface"; "col0"] in
  let args := snd (addNodeLabels (NodeLabels conf) [] args) in
  if String.eqb containerRuntime dockerName then
    args ++ ["--container-runtime-endpoint"; "unix:///run/cri-dockerd.sock"]
  else if String.eqb containerRuntime containerdName then
    args ++ ["--container-runtime-endpoint";
             "unix:///run/containerd/containerd.sock"]
  else args.

(** [func installK3sCluster(host, guest, a, log, containerRuntime, conf)]. *)
Definition installK3sCluster (log : list (string * string))
  (containerRuntime : string) (conf : Kubernetes) (ipAddress : string)
  (a : list ChainCall) : list ChainCall :=
  let downloadPath := "/tmp/k3s-install.sh" in
  let url := ("https://raw.githubusercontent.com/k3s-io/k3s/"
              ++ Version conf ++ "/install.sh")%string in
  a ++ [ChainAdd (download url downloadPath);
        ChainAdd (guestRun ["sudo"; "install"; downloadPath;
                            "/usr/local/bin/k3s-install.sh"]);
        LogInfo log ["discovered ip address "; ipAddress];
        LogInfo (fst (addNodeLabels (NodeLabels conf) log []))
                ["adding node labels"];
        ChainAdd (guestRun
                    ["sh"; "-c";
                     ("INSTALL_K3S_SKIP_DOWNLOAD=true INSTALL_K3S_SKIP_ENABLE=true k3s-install.sh "
                      ++ String.concat " " (k3sArgs containerRuntime conf ipAddress))%string])].

(** [func installK3s(host, guest, a, log, containerRuntime, conf)]. *)
Definition installK3s (goArch : string) (log : list (string * string))
  (containerRuntime : string) (conf : Kubernetes) (ipAddress : string)
  (a : list ChainCall) : list ChainCall :=
  installK3sCluster log containerRuntime conf ipAddress
    (installK3sCache goArch log containerRuntime conf
       (installK3sBinary goArch conf a)).

(** [func installAdditionalServices(host, guest, a, log, conf)]. *)
Definition installAdditionalServices (conf : Kubernetes) (a : list ChainCall)
  : list ChainCall :=
  if InstallMetalLB (AdditionalServices conf) then
    InstallMetallb (MetalLBAddressPool (AdditionalServices conf)) a
  else a.
End K3s.

(** The steps a sequence of calls queues. *)
Fixpoint queued (cs : list ChainCall) : list ChainCall :=
  match cs with
  | [] => []
  | LogInfo _ _ :: rest => queued rest
  | ChainStage _ :: rest => queued rest
  | c :: rest => c :: queued rest
  end.

(** A guest that refuses every command, and one whose embedded template
    cannot be executed. *)
Definition vmRefusing : VM :=
  {| vmRun := fun _ => Some (ErrNew "exit status 1");
     vmWrite := fun _ _ => None;
     vmDownload := fun _ _ => None;
     embeddedRead := fun _ => inr "addresses: {{.IpAddressRange}}";
     tmplParse := fun _ => None;
     tmplExecute := fun _ _ => inl (ErrNew "template: no such field") |}.

(** The process at the moment [Start], called on a new process, enters
    [watch]: it holds the guest [g] and, as its roots, the trimmed
    paths [ps] of the mounts. *)
Definition readyToWatch (g : GuestActions) (ps : list string)
  : fsnotifyProcess :=
  set_dirs (map (fun p => TrimSuffix p "/") ps) (set_guest g New).

(** * Properties *)

(** ** The monad *)

Lemma bind_done {A B} (m : M A) (k : A -> M B) f a f1 t1 :
  m f = (Done a, f1, t1) ->
  bind m k f = (fst (fst (k a f1)), snd (fst (k a f1)), t1 ++ snd (k a f1)).
Proof.
  intros Hm. unfold bind. rewrite Hm.
  destruct (k a f1) as [[r f2] t2]. reflexivity.
Qed.

Lemma bind_emit {B} (e : Effect) (k : unit -> M B) f :
  bind (emit e) k f
  = (fst (fst (k tt f)), snd (fst (k tt f)), (e, f) :: snd (k tt f)).
Proof. apply (bind_done (emit e) k f tt f [(e, f)]). reflexivity. Qed.

Lemma bind_ret {A B} (a : A) (k : A -> M B) f : bind (ret a) k f = k a f.
Proof.
  rewrite (bind_done (ret a) k f a f []) by reflexivity.
  destruct (k a f) as [[r f2] t2]. reflexivity.
Qed.

Lemma trace_emit_bind {B} (e : Effect) (k : unit -> M B) f :
  trace (bind (emit e) k) f = (e, f) :: trace (k tt) f.
Proof. unfold trace. rewrite bind_emit. reflexivity. Qed.

Lemma bind_ext {A B} (m : M A) (k1 k2 : A -> M B) f :
  (forall a f', k1 a f' = k2 a f') -> bind m k1 f = bind m k2 f.
Proof.
  intros H. unfold bind.
  destruct (m f) as [[[a| |] f1] t1]; try reflexivity.
  rewrite H. reflexivity.
Qed.

Lemma trace_bind_prefix {A B} (m : M A) (k : A -> M B) f :
  exists tl, trace (bind m k) f = trace m f ++ tl.
Proof.
  unfold trace, bind.
  destruct (m f) as [[[a| |] f1] t1]; cbn [snd].
  - destruct (k a f1) as [[r f2] t2]. exists t2. reflexivity.
  - exists []. rewrite app_nil_r. reflexivity.
  - exists []. rewrite app_nil_r. reflexivity.
Qed.

Lemma spawned_app es1 es2 : spawned (es1 ++ es2) = spawned es1 ++ spawned es2.
Proof.
  induction es1 as [|e es1 IH]; [reflexivity|].
  destruct e; simpl; rewrite ?IH; reflexivity.
Qed.

Lemma logged_app es1 es2 : logged (es1 ++ es2) = logged es1 ++ logged es2.
Proof.
  induction es1 as [|e es1 IH]; [reflexivity|].
  destruct e; simpl; rewrite ?IH; reflexivity.
Qed.

(** ** Dispatcher *)

(** The loop of [Dispatch] logs and starts one goroutine per event, in
    order, and touches nothing else. *)
Lemma Dispatch_loop (events : list Event) f :
  forEach events (fun ev =>
    tracef "%s modified, touching..." [AStr (Name ev)] ;;
    go (TaskTouch (Name ev))) f
  = (Done tt, f,
     flat_map (fun ev =>
       [(Log TraceLevel "%s modified, touching..." [AStr (Name ev)], f);
        (Go (TaskTouch (Name ev)), f)]) events).
Proof.
  induction events as [|ev rest IH]; [reflexivity|].
  cbn [forEach flat_map].
  rewrite (bind_done _ _ f tt f
             [(Log TraceLevel "%s modified, touching..." [AStr (Name ev)], f);
              (Go (TaskTouch (Name ev)), f)]) by reflexivity.
  rewrite IH. reflexivity.
Qed.

Lemma Dispatch_unfold (events : list Event) f :
  let l := Z.of_nat (length events) in
  Dispatch events f
  = (Done tt, f,
     (if 10 <? l
      then [(Log TraceLevel
               "fsnotify events more than 10 (%d), discarding the extra %d"
               [AInt l; AInt (l - 10)], f)]
      else [])
     ++ flat_map (fun ev =>
          [(Log TraceLevel "%s modified, touching..." [AStr (Name ev)], f);
           (Go (TaskTouch (Name ev)), f)]) (firstn 10 events)).
Proof.
  intros l. unfold Dispatch. fold l.
  destruct (l =? 0) eqn:H0.
  - apply Z.eqb_eq in H0. destruct events; [reflexivity|].
    subst l. cbn [length] in H0. lia.
  - destruct (10 <? l) eqn:H10.
    + rewrite (bind_done _ _ f (firstn 10 events) f
                 [(Log TraceLevel
                     "fsnotify events more than 10 (%d), discarding the extra %d"
                     [AInt l; AInt (l - 10)], f)]) by reflexivity.
      rewrite Dispatch_loop. reflexivity.
    + rewrite bind_ret, Dispatch_loop.
      rewrite firstn_all2; [reflexivity|].
      apply Z.ltb_ge in H10. subst l. lia.
Qed.

Lemma spawned_touches (events : list Event) f :
  spawned (effects (flat_map (fun ev =>
    [(Log TraceLevel "%s modified, touching..." [AStr (Name ev)], f);
     (Go (TaskTouch (Name ev)), f)]) events))
  = map (fun ev => TaskTouch (Name ev)) events.
Proof.
  induction events as [|ev rest IH]; [reflexivity|].
  cbn. f_equal. exact IH.
Qed.

Lemma logged_touches (events : list Event) f :
  logged (effects (flat_map (fun ev =>
    [(Log TraceLevel "%s modified, touching..." [AStr (Name ev)], f);
     (Go (TaskTouch (Name ev)), f)]) events))
  = map (fun ev => (TraceLevel, "%s modified, touching...", [AStr (Name ev)]))
        events.
Proof.
  induction events as [|ev rest IH]; [reflexivity|].
  cbn. f_equal. exact IH.
Qed.

Lemma dispatched_eq (events : list Event) f :
  dispatched events f = map (fun ev => TaskTouch (Name ev)) (firstn 10 events).
Proof.
  unfold dispatched, trace. rewrite Dispatch_unfold. cbn [snd].
  unfold effects. rewrite map_app. rewrite spawned_app.
  fold (effects (flat_map (fun ev =>
    [(Log TraceLevel "%s modified, touching..." [AStr (Name ev)], f);
     (Go (TaskTouch (Name ev)), f)]) (firstn 10 events))).
  rewrite spawned_touches.
  destruct (10 <? Z.of_nat (length events)); reflexivity.
Qed.

(** C1: whatever events a window accumulated, [Dispatch] starts a touch
    for the first 10 of them in arrival order and for no other, so the
    batch as dispatched never has more than 10 events; the events beyond
    the 10th are dropped, and the log line written exactly when there are
    more than 10 carries the number of events and the number dropped. *)
Theorem Dispatch_caps_batch (events : list Event) (f : fsnotifyProcess) :
  let l := Z.of_nat (length events) in
  dispatched events f
  = map (fun ev => TaskTouch (Name ev)) (firstn 10 events) /\
  (length (dispatched events f) <= 10)%nat /\
  l - Z.of_nat (length (dispatched events f)) = Z.max 0 (l - 10) /\
  logged (effects (trace (Dispatch events) f))
  = (if 10 <? l
     then [(TraceLevel,
            "fsnotify events more than 10 (%d), discarding the extra %d",
            [AInt l; AInt (l - 10)])]
     else [])
    ++ map (fun ev => (TraceLevel, "%s modified, touching...",
                       [AStr (Name ev)])) (firstn 10 events).
Proof.
  intros l. rewrite dispatched_eq, length_map, length_firstn.
  repeat split.
  - lia.
  - subst l. lia.
  - unfold trace. rewrite Dispatch_unfold. cbn [snd]. fold l.
    unfold effects. rewrite map_app, logged_app.
    fold (effects (flat_map (fun ev =>
      [(Log TraceLevel "%s modified, touching..." [AStr (Name ev)], f);
       (Go (TaskTouch (Name ev)), f)]) (firstn 10 events))).
    rewrite logged_touches.
    destruct (10 <? l); reflexivity.
Qed.

(** C10: handed an empty batch, [Dispatch] returns at once: it writes no
    log line (so no truncation), starts no goroutine and runs no guest
    command, and leaves the process as it was. *)
Theorem Dispatch_empty (f : fsnotifyProcess) :
  Dispatch [] f = (Done tt, f, []) /\
  dispatched [] f = [] /\
  touchCalls [] f = [].
Proof. repeat split. Qed.

(** A touch goroutine runs the guest command [touch file] once, whatever
    the guest answers. *)
Lemma Touch_once (file : string) f g :
  guest f = Some g ->
  Touch file f
  = (Done (RunQuiet g ["touch"; file]), f, [(GuestRunQuiet ["touch"; file], f)]).
Proof.
  intros Hg. unfold Touch.
  rewrite (bind_done get _ f f f []) by reflexivity.
  rewrite Hg, bind_emit. reflexivity.
Qed.

(** C7: once the process holds a guest, every event [Dispatch] retains
    leads to exactly one guest command, [touch] with the name of that
    event as its only argument, in one goroutine of its own; the commands
    run are the same whatever the guest answers to any of them. *)
Theorem Dispatch_touches_each_once
  (events : list Event) (f : fsnotifyProcess) (g : GuestActions) :
  guest f = Some g ->
  touchCalls events f
  = map (fun ev => ["touch"; Name ev]) (firstn 10 events) /\
  forall answers : list string -> option error,
    touchCalls events (set_guest (mkGuest answers) f) = touchCalls events f.
Proof.
  intros Hg.
  assert (Hcalls : forall f' g', guest f' = Some g' ->
            touchCalls events f'
            = map (fun ev => ["touch"; Name ev]) (firstn 10 events)).
  { intros f' g' Hg'. unfold touchCalls. rewrite dispatched_eq.
    induction (firstn 10 events) as [|ev rest IH]; [reflexivity|].
    cbn [map flat_map]. rewrite IH.
    unfold runTask, trace.
    rewrite (bind_done (Touch (Name ev)) _ f' _ f' _ (Touch_once _ f' g' Hg')).
    reflexivity. }
  split.
  - exact (Hcalls f g Hg).
  - intros answers.
    rewrite (Hcalls f g Hg).
    exact (Hcalls (set_guest (mkGuest answers) f) (mkGuest answers) eq_refl).
Qed.

Lemma Dispatch_touches_each_once_witness :
  guest Sample.started = Some Sample.guestFailing /\
  touchCalls Sample.twelve Sample.started
  = map (fun ev => ["touch"; Name ev]) (firstn 10 Sample.twelve).
Proof.
  split; [reflexivity|].
  apply (Dispatch_touches_each_once Sample.twelve Sample.started
           Sample.guestFailing).
  reflexivity.
Defined.

(** ** Event aggregation *)

(** The goroutines [collect] starts are the [Dispatch] calls of the
    windows the timer closes, each with the write notifications of its
    window. *)
Lemma collect_spawned (selects : list LoopSelect) :
  forall (arrived : list Event) f,
    spawned (effects (trace (collect selects (filter isWrite arrived)) f))
    = map (fun w => TaskDispatch (filter isWrite w)) (windows selects arrived).
Proof.
  induction selects as [|s rest IH]; intros arrived f; [reflexivity|].
  destruct s as [[ev|]|[e|]| |]; cbn [collect windows]; try reflexivity.
  - unfold tracef. rewrite trace_emit_bind. cbn [effects map spawned fst].
    fold (effects (trace
      (collect rest
         (if isWrite ev then filter isWrite arrived ++ [ev]
          else filter isWrite arrived)) f)).
    rewrite <- (IH (arrived ++ [ev]) f). rewrite filter_app. cbn [filter].
    destruct (isWrite ev); [reflexivity|]. rewrite app_nil_r. reflexivity.
  - unfold tracef. rewrite trace_emit_bind. cbn [effects map spawned fst].
    apply IH.
  - unfold go. rewrite trace_emit_bind. cbn [effects map spawned fst].
    f_equal. apply (IH [] f).
Qed.

(** C6: the batches the collection loop hands to [Dispatch] are, window
    by window, the notifications of that window whose operation includes
    write, in the order they arrived: every event of a batch has the
    write bit, and a notification that is only a create, a remove, a
    rename or a permission change is in no batch. *)
Theorem collect_keeps_writes_in_order
  (selects : list LoopSelect) (f : fsnotifyProcess) :
  spawned (effects (trace (collect selects []) f))
  = map (fun w => TaskDispatch (filter isWrite w)) (windows selects []) /\
  Forall (fun t => match t with
                   | TaskDispatch batch => forallb isWrite batch = true
                   | TaskTouch _ => False
                   end)
         (spawned (effects (trace (collect selects []) f))) /\
  (forall name,
     isWrite (mkEvent name Op.Write) = true /\
     isWrite (mkEvent name Op.Create) = false /\
     isWrite (mkEvent name Op.Remove) = false /\
     isWrite (mkEvent name Op.Rename) = false /\
     isWrite (mkEvent name Op.Chmod) = false).
Proof.
  split; [exact (collect_spawned selects [] f)|].
  split.
  - change (collect selects []) with (collect selects (filter isWrite [])).
    rewrite (collect_spawned selects [] f).
    apply Forall_forall. intros t Ht. apply in_map_iff in Ht.
    destruct Ht as [w [<- _]]. apply forallb_forall.
    intros ev Hev. apply filter_In in Hev. tauto.
  - intros name. repeat split.
Qed.

(** Arrival order within one window, on a sample run: the create is left
    out, the two writes keep their order. *)
Example collect_sample :
  spawned (effects (trace (collect (loopSelects Sample.envRunning) [])
                          Sample.started))
  = [TaskDispatch [Sample.write "/src/a.go";
                   mkEvent "/src/c.go" (Z.lor Op.Write Op.Chmod)]].
Proof. reflexivity. Qed.

(** ** Start *)

(** C9: when the context holds no guest, or a value that is not a
    [GuestActions], [Start] returns its error at once: nothing is
    polled, resolved, walked or registered, and the process is left
    untouched. *)
Theorem Start_without_guest (env : Env) (f : fsnotifyProcess) :
  ctxValue env = CtxAbsent \/ ctxValue env = CtxOther ->
  Start env f
  = (Done (Some (ErrNew "environment.GuestAction missing in context")), f, []).
Proof.
  intros [H|H]; unfold Start; rewrite H; reflexivity.
Qed.

Lemma Start_without_guest_witness :
  Start Sample.envNoGuest New
  = (Done (Some (ErrNew "environment.GuestAction missing in context")), New, []).
Proof.
  apply (Start_without_guest Sample.envNoGuest New).
  right. reflexivity.
Defined.

(** ** Runs that leave the alive flag alone *)

Section Quiet.
Variable P : Effect -> Prop.

Lemma quiet_ret {A} (a : A) : quiet P (ret a).
Proof. intros f. split; [reflexivity | constructor]. Qed.

Lemma quiet_panic {A} : quiet P (@panic A).
Proof. intros f. split; [reflexivity | constructor]. Qed.

Lemma quiet_blocked {A} : quiet P (@blocked A).
Proof. intros f. split; [reflexivity | constructor]. Qed.

Lemma quiet_get : quiet P get.
Proof. intros f. split; [reflexivity | constructor]. Qed.

Lemma quiet_emit (e : Effect) : P e -> quiet P (emit e).
Proof.
  intros He f. split; [reflexivity|].
  constructor; [split; [reflexivity | exact He] | constructor].
Qed.

Lemma quiet_modify (g : fsnotifyProcess -> fsnotifyProcess) :
  (forall f, alive (g f) = alive f) -> quiet P (modify g).
Proof. intros Hg f. split; [apply Hg | constructor]. Qed.

(** The continuation need only be quiet for the values the first part
    can return. *)
Lemma quiet_bind_on {A B} (R : A -> Prop) (m : M A) (k : A -> M B) :
  quiet P m ->
  (forall f a, run m f = Done a -> R a) ->
  (forall a, R a -> quiet P (k a)) ->
  quiet P (bind m k).
Proof.
  intros Hm HR Hk f.
  specialize (Hm f). specialize (HR f).
  unfold final, trace, run, bind in *.
  destruct (m f) as [[r f1] t1]. cbn [fst snd] in *.
  destruct Hm as [Hf1 Ht1].
  destruct r as [a| |]; cbn [fst snd]; try (split; assumption).
  specialize (Hk a (HR a eq_refl) f1). unfold final, trace in Hk.
  destruct (k a f1) as [[r2 f2] t2]. cbn [fst snd] in *.
  destruct Hk as [Hf2 Ht2]. split; [congruence|].
  apply Forall_app. split; [exact Ht1|].
  eapply Forall_impl; [|exact Ht2].
  intros s [Hs HP]. split; [congruence | exact HP].
Qed.

Lemma quiet_bind {A B} (m : M A) (k : A -> M B) :
  quiet P m -> (forall a, quiet P (k a)) -> quiet P (bind m k).
Proof.
  intros Hm Hk.
  apply (quiet_bind_on (fun _ => True) m k Hm); auto.
Qed.

Lemma quiet_defer {A} (cleanup : M unit) (body : M A) :
  quiet P body -> quiet P cleanup -> quiet P (defer cleanup body).
Proof.
  intros Hb Hc f.
  specialize (Hb f). unfold final, trace, defer in *.
  destruct (body f) as [[r f1] t1]. cbn [fst snd] in *.
  destruct Hb as [Hf1 Ht1].
  specialize (Hc f1). unfold final, trace in Hc.
  destruct (cleanup f1) as [[r2 f2] t2]. cbn [fst snd] in *.
  destruct Hc as [Hf2 Ht2].
  assert (Hall : Forall (fun s => alive (snd s) = alive f /\ P (fst s))
                        (t1 ++ t2)).
  { apply Forall_app. split; [exact Ht1|].
    eapply Forall_impl; [|exact Ht2].
    intros s [Hs HP]. split; [congruence | exact HP]. }
  destruct r; cbn [fst snd]; split; try assumption; congruence.
Qed.

Hypothesis Plog : forall lvl fmt args, P (Log lvl fmt args).

Lemma quiet_tracef fmt args : quiet P (tracef fmt args).
Proof. apply quiet_emit, Plog. Qed.

Lemma quiet_errorf fmt args : quiet P (errorf fmt args).
Proof. apply quiet_emit, Plog. Qed.

Lemma quiet_waitForLima (selects : list GateSelect) :
  P LimaInstance -> quiet P (waitForLima selects).
Proof.
  intros Hi. induction selects as [|s rest IH]; cbn [waitForLima].
  - apply quiet_bind; [apply quiet_tracef | intros _; apply quiet_blocked].
  - apply quiet_bind; [apply quiet_tracef | intros _].
    destruct s as [|inst]; [apply quiet_ret|].
    apply quiet_bind; [apply quiet_emit, Hi | intros _].
    destruct inst as [e|[|]]; auto using quiet_ret.
Qed.

Lemma quiet_resolveMounts (mounts : list Mount) :
  (forall m, P (MountCleanPath m)) -> quiet P (resolveMounts mounts).
Proof.
  intros Hm. induction mounts as [|m rest IH]; cbn [resolveMounts].
  - apply quiet_ret.
  - apply quiet_bind; [apply quiet_emit, Hm | intros _].
    destruct (CleanPath m); [apply quiet_ret|].
    apply quiet_bind; [|intros _; exact IH].
    apply quiet_modify. reflexivity.
Qed.

Lemma quiet_collect (selects : list LoopSelect) :
  (forall t, P (Go t)) -> forall events, quiet P (collect selects events).
Proof.
  intros Hgo. induction selects as [|s rest IH]; intros events;
    cbn [collect].
  - apply quiet_blocked.
  - destruct s as [[ev|]|[e|]| |]; try apply quiet_ret.
    + apply quiet_bind; [apply quiet_tracef | intros _; apply IH].
    + apply quiet_bind; [apply quiet_tracef | intros _; apply IH].
    + apply quiet_bind; [apply quiet_emit, Hgo | intros _; apply IH].
Qed.
End Quiet.

(** ** The directory walk *)

Lemma walkDir_Dir dir fn name n es err :
  walkDir dir fn name (Dir n es err)
  = (emit (Visit dir name) ;;
     r <- fn name (Some (Dir n es err)) None ;;
     match r with
     | Some _ => ret (skipped r (Dir n es err))
     | None =>
         emit (FsReadDir dir name) ;;
         r <- match err with
              | Some e =>
                  emit (Visit dir name) ;; fn name (Some (Dir n es err)) (Some e)
              | None => ret None
              end ;;
         match r with
         | Some _ => ret (skipped r (Dir n es err))
         | None => walkEntries dir fn name es
         end
     end).
Proof.
  assert (Hloop : forall ds,
    (fix loop (ds : list node) : M (option error) :=
       match ds with
       | [] => ret None
       | d1 :: rest =>
           r <- walkDir dir fn (path_Join name (EntryName d1)) d1 ;;
           match r with
           | None => loop rest
           | Some SkipDir => ret None
           | Some e => ret (Some e)
           end
       end) ds = walkEntries dir fn name ds).
  { induction ds as [|d1 rest IH]; [reflexivity|].
    cbn [walkEntries]. rewrite <- IH. reflexivity. }
  cbn [walkDir]. rewrite Hloop. reflexivity.
Qed.

(** What the function of [watch] returns on an entry: [SkipDir] for a
    hidden one, [nil] otherwise. *)
Lemma watchFn_result env path d err f a :
  run (watchFn env path (Some d) err) f = Done a ->
  a = if hiddenEntry (EntryName d) then Some SkipDir else None.
Proof.
  unfold run, watchFn.
  destruct err as [e|];
    [rewrite (bind_done _ _ f tt f
                [(Log ErrorLevel ""
                    [AErr (ErrWrap "error in walkdir for '%s': %w" [path] e)], f)])
       by reflexivity
    | rewrite bind_ret ];
    (destruct (hiddenEntry (EntryName d));
     [ unfold tracef; rewrite bind_emit; cbn; congruence
     | destruct (IsDir d);
       [ rewrite bind_emit; destruct (addResult env path);
         unfold errorf, tracef; rewrite bind_emit; cbn; congruence
       | cbn; congruence ] ]).
Qed.

Section QuietWalk.
Variable P : Effect -> Prop.
Variable env : Env.
Variable dir : string.
(** The entries the walk is allowed to be at. *)
Variable I : string -> node -> Prop.

Hypothesis Plog : forall lvl fmt args, P (Log lvl fmt args).
Hypothesis Pvisit : forall name d, I name d -> P (Visit dir name).
Hypothesis Pdir :
  forall name d,
    I name d -> IsDir d = true -> hiddenEntry (EntryName d) = false ->
    P (WatcherAdd name) /\ P (FsReadDir dir name).
Hypothesis Ientry :
  forall name n es err c,
    I name (Dir n es err) -> hiddenEntry n = false -> In c es ->
    I (path_Join name (EntryName c)) c.

Lemma quiet_watchFn name d err :
  I name d -> quiet P (watchFn env name (Some d) err).
Proof.
  intros HI. unfold watchFn.
  apply quiet_bind;
    [destruct err; [apply quiet_errorf, Plog | apply quiet_ret] | intros _].
  destruct (hiddenEntry (EntryName d)) eqn:Hh.
  - apply quiet_bind; [apply quiet_tracef, Plog | intros _; apply quiet_ret].
  - destruct (IsDir d) eqn:Hd; [|apply quiet_ret].
    apply quiet_bind; [apply quiet_emit, (Pdir name d HI Hd Hh) | intros _].
    destruct (addResult env name);
      (apply quiet_bind;
       [apply quiet_emit, Plog | intros _; apply quiet_ret]).
Qed.

Lemma quiet_walkDir (d : node) :
  forall name, I name d -> quiet P (walkDir dir (watchFn env) name d).
Proof.
  induction d as [n|n t _|n es err IH] using node_ind_nested;
    intros name HI.
  - cbn [walkDir].
    apply quiet_bind; [apply quiet_emit, (Pvisit _ _ HI) | intros _].
    apply quiet_bind; [apply quiet_watchFn, HI | intros r].
    destruct r; apply quiet_ret.
  - cbn [walkDir].
    apply quiet_bind; [apply quiet_emit, (Pvisit _ _ HI) | intros _].
    apply quiet_bind; [apply quiet_watchFn, HI | intros r].
    destruct r; apply quiet_ret.
  - rewrite walkDir_Dir.
    apply quiet_bind; [apply quiet_emit, (Pvisit _ _ HI) | intros _].
    apply (quiet_bind_on P
             (fun a => a = if hiddenEntry n then Some SkipDir else None));
      [apply quiet_watchFn, HI
      | intros f a; apply watchFn_result
      | intros a ->].
    destruct (hiddenEntry n) eqn:Hh; [apply quiet_ret|].
    destruct (Pdir name _ HI eq_refl Hh) as [_ Hread].
    apply quiet_bind; [apply quiet_emit, Hread | intros _].
    apply quiet_bind.
    + destruct err; [|apply quiet_ret].
      apply quiet_bind; [apply quiet_emit, (Pvisit _ _ HI) | intros _].
      apply quiet_watchFn, HI.
    + intros r. destruct r; [apply quiet_ret|].
      assert (Hes : forall cs, incl cs es ->
                quiet P (walkEntries dir (watchFn env) name cs)).
      { induction cs as [|c rest IHcs]; intros Hincl; cbn [walkEntries].
        - apply quiet_ret.
        - assert (Hc : In c es) by (apply Hincl; left; reflexivity).
          apply quiet_bind.
          + rewrite Forall_forall in IH. apply (IH c Hc).
            apply (Ientry name n es err c HI Hh Hc).
          + intros r. destruct r as [e|].
            * destruct e; apply quiet_ret.
            * apply IHcs. intros x Hx. apply Hincl. right. exact Hx. }
      apply Hes, incl_refl.
Qed.
End QuietWalk.

Lemma quiet_In (P : Effect -> Prop) {A} (m : M A) f e :
  quiet P m -> In e (effects (trace m f)) -> P e.
Proof.
  intros Hq Hin. destruct (Hq f) as [_ Hall].
  unfold effects in Hin. apply in_map_iff in Hin.
  destruct Hin as [s [<- Hs]].
  rewrite Forall_forall in Hall. apply (Hall s Hs).
Qed.

Lemma quiet_WalkDir (P : Effect -> Prop) env dir :
  (forall lvl fmt args, P (Log lvl fmt args)) ->
  (forall d, P (FsStat d)) ->
  (forall d p, P (Visit d p)) ->
  (forall d p, P (FsReadDir d p)) ->
  (forall p, P (WatcherAdd p)) ->
  quiet P (WalkDir env dir (watchFn env)).
Proof.
  intros Plog Pstat Pvisit Pread Padd. unfold WalkDir.
  apply quiet_bind; [apply quiet_emit, Pstat | intros _].
  apply quiet_bind.
  - destruct (statRoot env dir) as [e|info].
    + apply quiet_bind; [apply quiet_emit, Pvisit | intros _].
      unfold watchFn.
      apply quiet_bind; [apply quiet_errorf, Plog | intros _].
      apply quiet_panic.
    + apply (quiet_walkDir P env dir (fun _ _ => True)); auto.
  - intros r. destruct r as [e|]; [destruct e|]; apply quiet_ret.
Qed.

Lemma quiet_walkRoots (P : Effect -> Prop) env ds :
  (forall lvl fmt args, P (Log lvl fmt args)) ->
  (forall d, P (FsStat d)) ->
  (forall d p, P (Visit d p)) ->
  (forall d p, P (FsReadDir d p)) ->
  (forall p, P (WatcherAdd p)) ->
  quiet P (walkRoots env ds).
Proof.
  intros Plog Pstat Pvisit Pread Padd.
  induction ds as [|d rest IH]; cbn [walkRoots]; [apply quiet_ret|].
  apply quiet_bind; [apply quiet_WalkDir; assumption | intros r].
  destruct r; [apply quiet_ret | exact IH].
Qed.

(** The walk of one root keeps to the entries it can reach through real,
    non-hidden directories. *)
Lemma WalkDir_walkOk env dir info :
  statRoot env dir = inr info ->
  quiet (walkOk (rootEntry info)) (WalkDir env dir (watchFn env)).
Proof.
  intros Hstat. unfold WalkDir. rewrite Hstat.
  apply quiet_bind; [apply quiet_emit; exact Logic.I | intros _].
  apply quiet_bind.
  - apply (quiet_walkDir (walkOk (rootEntry info)) env dir
             (Reached (rootEntry info))).
    + intros; exact Logic.I.
    + intros name d Hr. exists d. exact Hr.
    + intros name d Hr Hd Hh. destruct d as [n|n t|n es err]; try discriminate.
      split; exists n, es, err; split; assumption.
    + intros name n es err c Hr Hh Hc.
      apply (Reached_entry _ name n es err c Hr Hh Hc).
    + apply Reached_root.
  - intros r. destruct r as [e|]; [destruct e|]; apply quiet_ret.
Qed.



(** ** Liveness *)

Lemma Alive_false f : alive f = false -> Alive f = Some (ErrNew "not running").
Proof. intros H. unfold Alive. rewrite H. reflexivity. Qed.

Lemma Alive_true f : alive f = true -> Alive f = None.
Proof. intros H. unfold Alive. rewrite H. reflexivity. Qed.

Lemma Before_quiet {A} (m : M A) f :
  quiet notStore m -> alive f = false -> Before (trace m f).
Proof.
  intros Hq Hf. destruct (Hq f) as [_ Hall].
  eapply Forall_impl; [|exact Hall].
  intros s [Hs Hn]. split; [apply Alive_false; congruence | exact Hn].
Qed.

Lemma flips_quiet {A} (m : M A) : quiet notStore m -> flips m.
Proof.
  intros Hq f Hf. exists (trace m f), []. rewrite app_nil_r.
  split; [reflexivity|]. split; [apply Before_quiet; assumption|].
  left. split; [reflexivity|].
  apply Alive_false. destruct (Hq f) as [Hfin _]. congruence.
Qed.

Lemma flips_bind {A B} (m : M A) (k : A -> M B) :
  quiet notStore m -> (forall a, flips (k a)) -> flips (bind m k).
Proof.
  intros Hq Hk f Hf.
  pose proof (Before_quiet m f Hq Hf) as Hbefore.
  destruct (Hq f) as [Hfin _].
  unfold final, trace, bind in *.
  destruct (m f) as [[r f1] t1]. cbn [fst snd] in *.
  destruct r as [a| |].
  - destruct (Hk a f1) as [pre [post [Ht [Hpre Hpost]]]]; [congruence|].
    unfold final, trace in *.
    destruct (k a f1) as [[r2 f2] t2]. cbn [fst snd] in *.
    exists (t1 ++ pre), post. rewrite Ht, app_assoc.
    split; [reflexivity|]. split; [|exact Hpost].
    apply Forall_app. split; assumption.
  - exists t1, []. rewrite app_nil_r. cbn [fst snd].
    split; [reflexivity|]. split; [exact Hbefore|].
    left. split; [reflexivity | apply Alive_false; congruence].
  - exists t1, []. rewrite app_nil_r. cbn [fst snd].
    split; [reflexivity|]. split; [exact Hbefore|].
    left. split; [reflexivity | apply Alive_false; congruence].
Qed.

Lemma flips_store {A} (m : M A) :
  quiet afterStore m -> flips (store_alive true ;; m).
Proof.
  intros Hq f Hf. destruct (Hq (set_alive true f)) as [Hfin Hall].
  assert (Heq : (store_alive true ;; m) f
                = (run m (set_alive true f), final m (set_alive true f),
                   (StoreAlive true, set_alive true f)
                     :: trace m (set_alive true f))).
  { unfold store_alive.
    rewrite (bind_done _ _ f tt (set_alive true f)
               [(StoreAlive true, set_alive true f)]) by reflexivity.
    reflexivity. }
  exists [], ((StoreAlive true, set_alive true f) :: trace m (set_alive true f)).
  unfold final at 1, trace at 1. rewrite Heq. cbn [fst snd app].
  split; [reflexivity|]. split; [constructor|].
  right. exists (set_alive true f), (trace m (set_alive true f)).
  split; [reflexivity|]. split; [reflexivity|]. split.
  - eapply Forall_impl; [|exact Hall].
    intros s [Hs [H1 H2]]. split; [apply Alive_true; exact Hs|].
    split; assumption.
  - apply Alive_true. exact Hfin.
Qed.

Lemma flips_defer_close {A} (body : M A) :
  flips body -> flips (defer (emit WatcherClose) body).
Proof.
  intros Hb f Hf. destruct (Hb f Hf) as [pre [post [Ht [Hpre Hpost]]]].
  unfold final, trace, defer in *.
  destruct (body f) as [[r f1] t1]. cbn [fst snd] in *.
  assert (Hclosed :
    exists pre' post',
      t1 ++ [(WatcherClose, f1)] = pre' ++ post' /\
      Before pre' /\ After post' f1).
  { destruct Hpost as [[-> Hff]|[fs [tl [-> [Hfs [Htl Hff]]]]]].
    - exists (pre ++ [(WatcherClose, f1)]), [].
      rewrite Ht, !app_nil_r. split; [reflexivity|]. split.
      + apply Forall_app. split; [exact Hpre|].
        constructor; [split; [exact Hff | reflexivity] | constructor].
      + left. split; [reflexivity | exact Hff].
    - exists pre, (((StoreAlive true, fs) :: tl) ++ [(WatcherClose, f1)]).
      rewrite Ht, app_assoc. split; [reflexivity|]. split; [exact Hpre|].
      right. exists fs, (tl ++ [(WatcherClose, f1)]).
      split; [reflexivity|]. split; [exact Hfs|]. split; [|exact Hff].
      apply Forall_app. split; [exact Htl|].
      constructor; [|constructor]. repeat split. exact Hff. }
  destruct r as [a| |]; cbn [emit fst snd].
  - exact Hclosed.
  - exact Hclosed.
  - exists pre, post. auto.
Qed.

Lemma flips_watch env : flips (watch env).
Proof.
  unfold watch.
  apply flips_bind; [apply quiet_emit; reflexivity | intros _].
  destruct (newWatcher env); [apply flips_quiet, quiet_ret|].
  apply flips_defer_close.
  apply flips_bind; [apply quiet_get | intros f1].
  apply flips_bind.
  - apply quiet_walkRoots; intros; reflexivity.
  - intros r. destruct r; [apply flips_quiet, quiet_ret|].
    apply flips_store.
    apply quiet_collect; intros; split; reflexivity.
Qed.

Lemma flips_Start env : flips (Start env).
Proof.
  unfold Start.
  destruct (asGuest (ctxValue env)) as [g|]; [|apply flips_quiet, quiet_ret].
  apply flips_bind; [apply quiet_modify; reflexivity | intros _].
  apply flips_bind;
    [apply quiet_waitForLima; intros; reflexivity | intros _].
  apply flips_bind; [apply quiet_emit; reflexivity | intros _].
  destruct (instanceConfig env) as [e|mounts];
    [apply flips_quiet, quiet_ret|].
  apply flips_bind;
    [apply quiet_resolveMounts; intros; reflexivity | intros r].
  destruct r; [apply flips_quiet, quiet_ret | apply flips_watch].
Qed.

(** Once the watcher exists and the walk of all roots has returned, the
    next thing [watch] does is store the flag. *)
Lemma watch_stores_after_walk env f :
  newWatcher env = None ->
  run (walkRoots env (dirs f)) f = Done None ->
  exists tl,
    trace (watch env) f
    = (NewWatcher, f) :: trace (walkRoots env (dirs f)) f
      ++ (StoreAlive true, set_alive true (final (walkRoots env (dirs f)) f))
      :: tl.
Proof.
  intros Hnw Hrun. unfold trace at 1. unfold watch.
  rewrite bind_emit, Hnw. cbn [snd]. unfold run, final, trace in *.
  unfold store_alive, defer, bind, get, modify, emit.
  destruct (walkRoots env (dirs f) f) as [[r f1] t1]. cbn [fst snd] in *.
  subst r. cbn [fst snd app].
  destruct (collect (loopSelects env) [] (set_alive true f1)) as [[r2 f2] t2].
  destruct r2; cbn [fst snd app]; rewrite <- ?app_assoc; cbn [app];
    eexists; reflexivity.
Qed.

(** ** The readiness gate *)





(** ** Which directories are registered *)

(** What the walk of a root registers is a real directory with a name
    the hidden test lets through, reached through such directories
    only. *)
Lemma walk_registers_visible_only env dir info f p :
  statRoot env dir = inr info ->
  In (WatcherAdd p) (effects (trace (WalkDir env dir (watchFn env)) f)) ->
  exists n es err,
    Reached (rootEntry info) p (Dir n es err) /\ hiddenEntry n = false.
Proof.
  intros Hstat Hin.
  exact (quiet_In _ _ f _ (WalkDir_walkOk env dir info Hstat) Hin).
Qed.

(** The first thing the walk does with a root that is a directory is to
    hand the path ["."] to [watcher.Add]. *)
Lemma WalkDir_adds_dot env dir n es err f :
  statRoot env dir = inr (Dir n es err) ->
  exists tl,
    effects (trace (WalkDir env dir (watchFn env)) f)
    = FsStat dir :: Visit dir "." :: WatcherAdd "." :: tl.
Proof.
  intros Hstat. unfold WalkDir. rewrite trace_emit_bind, Hstat.
  cbn [rootEntry].
  destruct (trace_bind_prefix (walkDir dir (watchFn env) "." (Dir "." es err))
              (fun r => match r with
                        | Some SkipDir => ret None
                        | _ => ret r
                        end) f) as [tl1 ->].
  rewrite walkDir_Dir, trace_emit_bind.
  destruct (trace_bind_prefix
              (watchFn env "." (Some (Dir "." es err)) None)
              (fun r =>
                 match r with
                 | Some _ => ret (skipped r (Dir "." es err))
                 | None =>
                     emit (FsReadDir dir ".") ;;
                     r <- match err with
                          | Some e =>
                              emit (Visit dir ".") ;;
                              watchFn env "." (Some (Dir "." es err)) (Some e)
                          | None => ret None
                          end ;;
                     match r with
                     | Some _ => ret (skipped r (Dir "." es err))
                     | None => walkEntries dir (watchFn env) "." es
                     end
                 end) f) as [tl2 ->].
  unfold watchFn at 1. unfold trace at 1. rewrite bind_ret.
  change (hiddenEntry (EntryName (Dir "." es err))) with false.
  cbn [IsDir]. rewrite bind_emit.
  cbn [snd effects map fst app]. eexists. reflexivity.
Qed.

(** C4, on a root that holds the file [.gitignore] and the directory
    [src]: [src] is a real directory with a visible name directly under
    the root, yet the walk ends at the hidden file, before it reaches
    [src]: only ["."] is registered, and [Start] goes on and stores the
    alive flag.  [traverseDir] on the same tree registers the root,
    [src] and [src/pkg]. *)
Theorem hidden_file_ends_walk_of_siblings :
  let es := effects (trace (Start Sample.envHiddenFile) New) in
  Reached (rootEntry Sample.treeHiddenFile) "src"
          (Dir "src" [Dir "pkg" [] None] None) /\
  hiddenEntry "src" = false /\
  filter isTraversal es
  = [FsStat "/Users/u"; Visit "/Users/u" "."; WatcherAdd ".";
     FsReadDir "/Users/u" "."; Visit "/Users/u" ".gitignore"] /\
  ~ In (WatcherAdd "src") es /\
  run (Start Sample.envHiddenFile) New = Done None /\
  alive (final (Start Sample.envHiddenFile) New) = true /\
  filter isTraversal
    (effects (trace (traverseDir Sample.envHiddenFile "/Users"
                                 Sample.treeHiddenFile) New))
  = [OsReadDir "/Users/u"; WatcherAdd "/Users/u";
     OsReadDir "/Users/u/src"; WatcherAdd "/Users/u/src";
     OsReadDir "/Users/u/src/pkg"; WatcherAdd "/Users/u/src/pkg"].
Proof.
  cbv zeta. split; [|split; [|split; [|split; [|split; [|split]]]]].
  - exact (Reached_entry (rootEntry Sample.treeHiddenFile) "." "."
             [File ".gitignore"; Dir "src" [Dir "pkg" [] None] None] None
             (Dir "src" [Dir "pkg" [] None] None)
             (Reached_root _) eq_refl (or_intror (or_introl eq_refl))).
  - reflexivity.
  - vm_compute. reflexivity.
  - vm_compute. intros H.
    repeat (destruct H as [H|H]; [discriminate H|]). exact H.
  - vm_compute. reflexivity.
  - vm_compute. reflexivity.
  - vm_compute. reflexivity.
Qed.

(** C8, on the root [/Users/u] whose entries cannot be read: the walk
    hands ["."] to [watcher.Add], before the read and again when the
    read has failed, and never the path of the root; the failure is not
    fatal, [Start] goes on and stores the alive flag.  [traverseDir] on
    the same root returns before it registers anything. *)
Theorem unreadable_root_registered_as_dot :
  let es := effects (trace (Start Sample.envUnreadable) New) in
  dirs (final (Start Sample.envUnreadable) New) = ["/Users/u"] /\
  filter isTraversal es
  = [FsStat "/Users/u"; Visit "/Users/u" "."; WatcherAdd ".";
     FsReadDir "/Users/u" "."; Visit "/Users/u" "."; WatcherAdd "."] /\
  ~ In (WatcherAdd "/Users/u") es /\
  run (Start Sample.envUnreadable) New = Done None /\
  alive (final (Start Sample.envUnreadable) New) = true /\
  filter isTraversal
    (effects (trace (traverseDir Sample.envUnreadable "/Users"
                                 Sample.treeUnreadable) New))
  = [OsReadDir "/Users/u"].
Proof.
  cbv zeta. split; [|split; [|split; [|split; [|split]]]].
  - vm_compute. reflexivity.
  - vm_compute. reflexivity.
  - vm_compute. intros H.
    repeat (destruct H as [H|H]; [discriminate H|]). exact H.
  - vm_compute. reflexivity.
  - vm_compute. reflexivity.
  - vm_compute. reflexivity.
Qed.

(** ** The walk never fails *)

Lemma run_emit_bind {B} (e : Effect) (k : unit -> M B) f :
  run (bind (emit e) k) f = run (k tt) f.
Proof. unfold run. rewrite bind_emit. reflexivity. Qed.

Lemma run_bind_done {A B} (m : M A) (k : A -> M B) f a :
  run m f = Done a -> run (bind m k) f = run (k a) (final m f).
Proof.
  unfold run, final, bind. destruct (m f) as [[r f1] t1]. cbn [fst snd].
  intros ->. destruct (k a f1) as [[r2 f2] t2]. reflexivity.
Qed.

Lemma watchFn_run env path d err f :
  run (watchFn env path (Some d) err) f
  = Done (if hiddenEntry (EntryName d) then Some SkipDir else None).
Proof.
  unfold watchFn, run, bind, errorf, tracef, emit, ret.
  destruct err; destruct (hiddenEntry (EntryName d)); try reflexivity;
    destruct (IsDir d); try reflexivity;
    destruct (addResult env path); reflexivity.
Qed.

(** The walk of an entry returns [SkipDir] for a hidden entry that is
    not a directory and [nil] for every other entry: it neither fails
    nor panics, whatever cannot be read or registered below. *)
Lemma walkDir_run env dir (d : node) :
  forall name f,
    run (walkDir dir (watchFn env) name d) f
    = Done (if hiddenEntry (EntryName d) && negb (IsDir d)
            then Some SkipDir else None).
Proof.
  induction d as [n|n t _|n es err IH] using node_ind_nested; intros name f.
  - cbn [walkDir]. rewrite run_emit_bind.
    rewrite (run_bind_done _ _ f _ (watchFn_run env name (File n) None f)).
    cbn [EntryName IsDir negb]. rewrite andb_true_r.
    destruct (hiddenEntry n); reflexivity.
  - cbn [walkDir]. rewrite run_emit_bind.
    rewrite (run_bind_done _ _ f _ (watchFn_run env name (Symlink n t) None f)).
    cbn [EntryName IsDir negb]. rewrite andb_true_r.
    destruct (hiddenEntry n); reflexivity.
  - rewrite walkDir_Dir, run_emit_bind.
    rewrite (run_bind_done _ _ f _
               (watchFn_run env name (Dir n es err) None f)).
    cbn [EntryName IsDir negb]. rewrite andb_false_r.
    destruct (hiddenEntry n) eqn:Hh; [reflexivity|].
    rewrite run_emit_bind.
    assert (Hes : forall cs, incl cs es -> forall f',
              run (walkEntries dir (watchFn env) name cs) f' = Done None).
    { induction cs as [|c rest IHcs]; intros Hincl f'; [reflexivity|].
      cbn [walkEntries].
      assert (Hc : In c es) by (apply Hincl; left; reflexivity).
      rewrite Forall_forall in IH.
      rewrite (run_bind_done _ _ f' _ (IH c Hc _ f')).
      destruct (hiddenEntry (EntryName c) && negb (IsDir c));
        [reflexivity|].
      apply IHcs. intros x Hx. apply Hincl. right. exact Hx. }
    destruct err as [e|].
    + erewrite run_bind_done.
      2:{ rewrite run_emit_bind.
          apply (watchFn_run env name (Dir n es (Some e)) (Some e)). }
      cbn [EntryName]. rewrite Hh. apply Hes, incl_refl.
    + erewrite run_bind_done; [|reflexivity].
      apply Hes, incl_refl.
Qed.

(** The walk of a root that can be stat'ed returns [nil]. *)
Lemma WalkDir_run env dir info f :
  statRoot env dir = inr info ->
  run (WalkDir env dir (watchFn env)) f = Done None.
Proof.
  intros Hstat. unfold WalkDir. rewrite run_emit_bind, Hstat.
  rewrite (run_bind_done _ _ f _
             (walkDir_run env dir (rootEntry info) "." f)).
  destruct info; reflexivity.
Qed.

(** When every root can be stat'ed, the loop over the roots returns
    [nil]. *)
Lemma walkRoots_run env ds :
  Forall (fun d => exists info, statRoot env d = inr info) ds ->
  forall f, run (walkRoots env ds) f = Done None.
Proof.
  induction 1 as [|d rest [info Hd] _ IH]; intros f; [reflexivity|].
  cbn [walkRoots].
  rewrite (run_bind_done _ _ f _ (WalkDir_run env d info f Hd)).
  apply IH.
Qed.

(** ** The paths handed to the watcher *)

Lemma plainName_path_Join name child :
  plainName name = true -> plainName child = true ->
  plainName (path_Join name child) = true.
Proof.
  intros Hn Hc. unfold path_Join.
  destruct (String.eqb name "."); [exact Hc|].
  destruct name as [|a rest]; [discriminate Hn | exact Hn].
Qed.

(** The walk of a root hands only relative paths to [watcher.Add]: a
    root given by an absolute path is never registered under that
    path. *)
Lemma walk_never_adds_absolute_path env dir info f p :
  statRoot env dir = inr info ->
  plainNames info = true ->
  In (WatcherAdd p) (effects (trace (WalkDir env dir (watchFn env)) f)) ->
  plainName p = true.
Proof.
  intros Hstat Hnames Hin.
  assert (Hq : quiet addsRelative (WalkDir env dir (watchFn env))).
  { unfold WalkDir. rewrite Hstat.
    apply quiet_bind; [apply quiet_emit; exact Logic.I | intros _].
    apply quiet_bind.
    - apply (quiet_walkDir addsRelative env dir
               (fun name d => plainName name = true /\ plainNames d = true)).
      + intros; exact Logic.I.
      + intros; exact Logic.I.
      + intros name d [Hn _] _ _. split; [exact Hn | exact Logic.I].
      + intros name n es err c [Hn Hd] _ Hc. cbn [plainNames] in Hd.
        rewrite forallb_forall in Hd. specialize (Hd c Hc).
        apply andb_true_iff in Hd. destruct Hd as [Hc1 Hc2].
        split; [apply plainName_path_Join; assumption | exact Hc2].
      + split; [reflexivity|]. destruct info; exact Hnames.
    - intros r. destruct r as [e|]; [destruct e|]; apply quiet_ret. }
  exact (quiet_In _ _ f _ Hq Hin).
Qed.

(** * Further properties *)

(** ** More on the monad *)

Lemma trace_bind_done {A B} (m : M A) (k : A -> M B) f a :
  run m f = Done a ->
  trace (bind m k) f = trace m f ++ trace (k a) (final m f).
Proof.
  unfold run, final, trace, bind. destruct (m f) as [[r f1] t1].
  cbn [fst snd]. intros ->. destruct (k a f1) as [[r2 f2] t2]. reflexivity.
Qed.

Lemma final_bind_done {A B} (m : M A) (k : A -> M B) f a :
  run m f = Done a ->
  final (bind m k) f = final (k a) (final m f).
Proof.
  unfold run, final, bind. destruct (m f) as [[r f1] t1].
  cbn [fst snd]. intros ->. destruct (k a f1) as [[r2 f2] t2]. reflexivity.
Qed.

Lemma run_bind_stuck {A B} (m : M A) (k : A -> M B) f :
  (run m f = Panic -> run (bind m k) f = Panic) /\
  (run m f = Blocked -> run (bind m k) f = Blocked).
Proof.
  unfold run, bind. destruct (m f) as [[[a| |] f1] t1]; cbn [fst snd];
    split; intros H; try discriminate H; reflexivity.
Qed.

Lemma trace_bind_stuck {A B} (m : M A) (k : A -> M B) f :
  (forall a, run m f <> Done a) ->
  trace (bind m k) f = trace m f /\ final (bind m k) f = final m f.
Proof.
  unfold run, trace, final, bind. destruct (m f) as [[[a| |] f1] t1];
    cbn [fst snd]; intros H; [destruct (H a eq_refl) | split .. ];
    reflexivity.
Qed.

Lemma effects_app t1 t2 : effects (t1 ++ t2) = effects t1 ++ effects t2.
Proof. apply map_app. Qed.

(** ** The readiness gate, in general *)

(** X1: as long as every select of the gate is a timer expiry followed
    by a failed instance query or by a guest that is not running,
    [waitForLima] stays in its loop: with nothing but such selects it is
    still waiting.  It returns on the first poll that finds the guest
    running, having queried the instance once per expiry, or on
    cancellation, which it takes without a query; an error of the
    instance query is treated like a guest that is not running, and
    nothing after the select that ends the wait is consumed. *)
Theorem waitForLima_polls_until_ready
  (pre rest : list GateSelect) (f : fsnotifyProcess) :
  forallb notReady pre = true ->
  let poll := [Log TraceLevel "waiting for Lima..." []; LimaInstance] in
  run (waitForLima pre) f = Blocked /\
  waitForLima (pre ++ GateAfter (inr true) :: rest) f
  = (Done tt, f,
     map (fun e => (e, f)) (flat_map (fun _ => poll) pre ++ poll)) /\
  waitForLima (pre ++ GateCtxDone :: rest) f
  = (Done tt, f,
     map (fun e => (e, f))
         (flat_map (fun _ => poll) pre
          ++ [Log TraceLevel "waiting for Lima..." []])).
Proof.
  intros Hpre poll. induction pre as [|s pre IH].
  - repeat split.
  - cbn [forallb] in Hpre. apply andb_true_iff in Hpre.
    destruct Hpre as [Hs Hpre]. destruct (IH Hpre) as [IH1 [IH2 IH3]].
    assert (Hstep : forall tail,
              waitForLima (s :: tail)
              = (tracef "waiting for Lima..." [] ;;
                 emit LimaInstance ;; waitForLima tail)).
    { intros tail. destruct s as [|[e|[|]]]; try discriminate Hs;
        reflexivity. }
    cbn [app flat_map]. rewrite !Hstep. unfold tracef, run.
    rewrite !bind_emit. cbn [fst snd].
    unfold run in IH1. rewrite IH1, IH2, IH3. repeat split.
Qed.

Lemma waitForLima_polls_until_ready_witness :
  run (waitForLima [GateAfter (inr false); GateAfter (inl (ErrNew "no instance"))])
      New = Blocked.
Proof.
  apply (waitForLima_polls_until_ready
           [GateAfter (inr false); GateAfter (inl (ErrNew "no instance"))]
           [] New).
  reflexivity.
Defined.

(** ** Mount resolution *)

Lemma resolveMounts_ok (ps : list string) :
  forall (tail : list Mount) f,
    run (resolveMounts (map mountAt ps ++ tail)) f
    = run (resolveMounts tail)
          (set_dirs (dirs f ++ map (fun p => TrimSuffix p "/") ps) f) /\
    final (resolveMounts (map mountAt ps ++ tail)) f
    = final (resolveMounts tail)
            (set_dirs (dirs f ++ map (fun p => TrimSuffix p "/") ps) f) /\
    effects (trace (resolveMounts (map mountAt ps ++ tail)) f)
    = map MountCleanPath (map mountAt ps)
      ++ effects (trace (resolveMounts tail)
                    (set_dirs (dirs f ++ map (fun p => TrimSuffix p "/") ps) f)).
Proof.
  induction ps as [|p ps IH]; intros tail f.
  - cbn [map app]. rewrite app_nil_r. destruct f. repeat split.
  - cbn [map app resolveMounts mountAt CleanPath].
    fold (mountAt p).
    set (f1 := set_dirs (dirs f ++ [TrimSuffix p "/"]) f).
    assert (Hbody :
      (emit (MountCleanPath (mountAt p)) ;;
       modify (fun f => set_dirs (dirs f ++ [TrimSuffix p "/"]) f) ;;
       resolveMounts (map mountAt ps ++ tail)) f
      = (run (resolveMounts (map mountAt ps ++ tail)) f1,
         final (resolveMounts (map mountAt ps ++ tail)) f1,
         (MountCleanPath (mountAt p), f)
           :: trace (resolveMounts (map mountAt ps ++ tail)) f1)).
    { rewrite bind_emit.
      rewrite (bind_done (modify _) _ f tt f1 []) by reflexivity.
      reflexivity. }
    unfold run at 1, final at 1, trace at 1. rewrite Hbody. cbn [fst snd].
    destruct (IH tail f1) as [H1 [H2 H3]].
    assert (Hf1 : set_dirs (dirs f1 ++ map (fun p => TrimSuffix p "/") ps) f1
                  = set_dirs (dirs f ++ TrimSuffix p "/"
                                :: map (fun p => TrimSuffix p "/") ps) f).
    { unfold f1, set_dirs. cbn [dirs guest alive].
      rewrite <- app_assoc. reflexivity. }
    rewrite Hf1 in H1, H2, H3.
    rewrite H1, H2. cbn [effects map fst]. fold (effects
      (trace (resolveMounts (map mountAt ps ++ tail)) f1)).
    rewrite H3. repeat split.
Qed.

(** X2: the mount loop of [Start] appends to [f.dirs], in order, the
    path of every mount up to the first one whose [CleanPath] fails,
    each with a trailing slash trimmed.  When no mount fails the loop
    ends without error; at the first failure it returns that error
    wrapped, keeps what it has appended so far, and does not look at the
    mounts after it.  Guest and alive flag are not touched. *)
Theorem resolveMounts_appends_until_failure
  (ps : list string) (e : error) (rest : list Mount) (f : fsnotifyProcess) :
  let trimmed := map (fun p => TrimSuffix p "/") ps in
  (run (resolveMounts (map mountAt ps)) f = Done None /\
   final (resolveMounts (map mountAt ps)) f = set_dirs (dirs f ++ trimmed) f /\
   effects (trace (resolveMounts (map mountAt ps)) f)
   = map MountCleanPath (map mountAt ps)) /\
  (run (resolveMounts (map mountAt ps ++ mkMount (inl e) :: rest)) f
   = Done (Some (ErrWrap "error retrieving mount path: %w" [] e)) /\
   final (resolveMounts (map mountAt ps ++ mkMount (inl e) :: rest)) f
   = set_dirs (dirs f ++ trimmed) f /\
   effects (trace (resolveMounts (map mountAt ps ++ mkMount (inl e) :: rest)) f)
   = map MountCleanPath (map mountAt ps ++ [mkMount (inl e)])).
Proof.
  intros trimmed. split.
  - destruct (resolveMounts_ok ps [] f) as [H1 [H2 H3]].
    rewrite app_nil_r in H1, H2, H3. rewrite H1, H2, H3.
    cbn [resolveMounts]. rewrite app_nil_r. repeat split.
  - destruct (resolveMounts_ok ps (mkMount (inl e) :: rest) f) as [H1 [H2 H3]].
    rewrite H1, H2, H3. rewrite map_app. repeat split.
Qed.

Lemma length_append_string (s t : string) :
  String.length (s ++ t) = (String.length s + String.length t)%nat.
Proof. induction s as [|c s IH]; cbn; [reflexivity | rewrite IH; reflexivity]. Qed.

Lemma substring_all (t : string) : substring 0 (String.length t) t = t.
Proof. induction t as [|c t IH]; cbn; [reflexivity | rewrite IH; reflexivity]. Qed.

Lemma substring_front (s t : string) :
  substring 0 (String.length s) (s ++ t) = s.
Proof.
  induction s as [|c s IH]; cbn.
  - destruct t; reflexivity.
  - rewrite IH. reflexivity.
Qed.

Lemma substring_back (s t : string) :
  substring (String.length s) (String.length t) (s ++ t) = t.
Proof.
  induction s as [|c s IH]; cbn; [apply substring_all | exact IH].
Qed.

(** [strings.TrimSuffix] takes one occurrence of the suffix away. *)
Lemma TrimSuffix_append (s suffix : string) :
  TrimSuffix (s ++ suffix) suffix = s.
Proof.
  unfold TrimSuffix, HasSuffix. rewrite length_append_string.
  replace (String.length s + String.length suffix - String.length suffix)%nat
    with (String.length s) by lia.
  rewrite substring_back, String.eqb_refl, substring_front.
  replace (String.length suffix <=? String.length s + String.length suffix)%nat
    with true by (symmetry; apply Nat.leb_le; lia).
  reflexivity.
Qed.

Lemma append_assoc_string (s t u : string) : ((s ++ t) ++ u = s ++ (t ++ u))%string.
Proof. induction s as [|c s IH]; cbn; [reflexivity | rewrite IH; reflexivity]. Qed.

(** X3: a mount whose cleaned path ends in a slash is stored in
    [f.dirs] without that slash, and only that one: of two trailing
    slashes one remains. *)
Theorem mount_path_loses_one_slash (ps : list string) (f : fsnotifyProcess) :
  dirs (final (resolveMounts (map (fun p => mountAt (p ++ "/")) ps)) f)
  = dirs f ++ ps /\
  forall p,
    dirs (final (resolveMounts [mountAt (p ++ "//")]) f)
    = dirs f ++ [(p ++ "/")%string].
Proof.
  assert (Hall : forall qs,
            dirs (final (resolveMounts (map (fun p => mountAt (p ++ "/")) qs)) f)
            = dirs f ++ qs).
  { intros qs.
    destruct (resolveMounts_ok (map (fun p => (p ++ "/")%string) qs) [] f)
      as [_ [H2 _]].
    rewrite app_nil_r, map_map in H2. rewrite H2. cbn [resolveMounts].
    unfold final, ret. cbn [fst snd set_dirs dirs].
    rewrite map_map. f_equal.
    rewrite <- (map_id qs) at 2. apply map_ext.
    intros p. apply TrimSuffix_append. }
  split; [apply Hall|].
  intros p. specialize (Hall [(p ++ "/")%string]). cbn [map] in Hall.
  rewrite append_assoc_string in Hall. exact Hall.
Qed.

(** ** What Start does before it watches *)

Lemma resolveMounts_all_clean (mounts : list Mount) :
  forall f,
    run (resolveMounts mounts) f = Done None ->
    Forall (fun m => exists p, CleanPath m = inr p) mounts.
Proof.
  induction mounts as [|m rest IH]; intros f Hrun; [constructor|].
  cbn [resolveMounts] in Hrun. rewrite run_emit_bind in Hrun.
  destruct (CleanPath m) as [e|p] eqn:Hm; [discriminate Hrun|].
  rewrite (run_bind_done (modify _) _ f tt eq_refl) in Hrun.
  constructor; [exists p; exact Hm | exact (IH _ Hrun)].
Qed.

Lemma Start_quiet_unless (env : Env) :
  (forall g mounts,
     ctxValue env = CtxGuest g ->
     instanceConfig env = inr mounts ->
     Forall (fun m => exists p, CleanPath m = inr p) mounts -> False) ->
  quiet notWatchWork (Start env).
Proof.
  intros Hno. unfold Start.
  destruct (ctxValue env) as [| |g] eqn:Hctx; cbn [asGuest];
    try apply quiet_ret.
  apply quiet_bind; [apply quiet_modify; reflexivity | intros _].
  apply quiet_bind;
    [apply quiet_waitForLima; intros; reflexivity | intros _].
  apply quiet_bind; [apply quiet_emit; reflexivity | intros _].
  destruct (instanceConfig env) as [e|mounts] eqn:Hcfg; [apply quiet_ret|].
  apply (quiet_bind_on notWatchWork (fun r => r <> None)).
  - apply quiet_resolveMounts; intros; reflexivity.
  - intros f a Hrun ->.
    exact (Hno g mounts eq_refl eq_refl (resolveMounts_all_clean mounts f Hrun)).
  - intros r Hr. destruct r; [apply quiet_ret | destruct (Hr eq_refl)].
Qed.

(** X4: [Start] creates no watcher, walks nothing, registers nothing and
    does not store the alive flag unless the context holds a guest, the
    instance configuration can be retrieved and the path of every mount
    can be cleaned. *)
Theorem Start_watches_only_after_resolution
  (env : Env) (f : fsnotifyProcess) (e : Effect) :
  In e (effects (trace (Start env) f)) ->
  isWatchWork e = true ->
  (exists g, ctxValue env = CtxGuest g) /\
  exists mounts,
    instanceConfig env = inr mounts /\
    Forall (fun m => exists p, CleanPath m = inr p) mounts.
Proof.
  intros Hin Hwork.
  assert (Hquiet : quiet notWatchWork (Start env) -> False).
  { intros Hq. pose proof (quiet_In _ _ f _ Hq Hin) as Hn.
    unfold notWatchWork in Hn. congruence. }
  destruct (ctxValue env) as [| |g] eqn:Hctx;
    try (exfalso; apply Hquiet, Start_quiet_unless; intros; congruence).
  split; [exists g; reflexivity|].
  destruct (instanceConfig env) as [err|mounts] eqn:Hcfg;
    [exfalso; apply Hquiet, Start_quiet_unless; intros; congruence|].
  exists mounts. split; [reflexivity|].
  destruct (forallb (fun m => match CleanPath m with
                              | inr _ => true
                              | inl _ => false
                              end) mounts) eqn:Hall.
  - rewrite forallb_forall in Hall. apply Forall_forall.
    intros m Hm. specialize (Hall m Hm).
    destruct (CleanPath m) as [|p]; [discriminate Hall | exists p; reflexivity].
  - exfalso. apply Hquiet, Start_quiet_unless.
    intros g' mounts' _ Hcfg' Hok.
    assert (mounts' = mounts) by congruence. subst mounts'.
    assert (Htrue : forallb (fun m => match CleanPath m with
                                      | inr _ => true
                                      | inl _ => false
                                      end) mounts = true).
    { apply forallb_forall. intros m Hm. rewrite Forall_forall in Hok.
      destruct (Hok m Hm) as [p ->]. reflexivity. }
    congruence.
Qed.

Lemma Start_watches_only_after_resolution_witness :
  exists g, ctxValue Sample.envRunning = CtxGuest g.
Proof.
  apply (Start_watches_only_after_resolution Sample.envRunning New NewWatcher).
  - vm_compute. do 4 right. left. reflexivity.
  - reflexivity.
Defined.

(** ** How the collection loop ends *)

Lemma collect_final (selects : list LoopSelect) :
  forall batch f, final (collect selects batch) f = f.
Proof.
  induction selects as [|s rest IH]; intros batch f; [reflexivity|].
  destruct s as [[ev|]|[e|]| |]; cbn [collect]; try reflexivity;
    unfold tracef, go, final; rewrite bind_emit; cbn [fst snd]; apply IH.
Qed.

Lemma collect_run_any (selects : list LoopSelect) :
  forall batch f f', run (collect selects batch) f = run (collect selects batch) f'.
Proof.
  induction selects as [|s rest IH]; intros batch f f'; [reflexivity|].
  destruct s as [[ev|]|[e|]| |]; cbn [collect]; try reflexivity;
    unfold tracef, go; rewrite !run_emit_bind; apply IH.
Qed.

(** X5: the collection loop ends only on a receive from a closed
    channel or on cancellation: while neither occurs it keeps waiting.
    When it ends it returns [nil] for cancellation and the error
    "watcher channel closed" for a closed channel, it has done exactly
    what it had done before that select, so the batch of the window in
    progress is handed to no [Dispatch], and nothing after that select
    is consumed. *)
Theorem collect_ends_on_close_or_cancel
  (pre : list LoopSelect) (s : LoopSelect) (rest : list LoopSelect) :
  forallb (fun x => negb (endsLoop x)) pre = true ->
  forall (batch : list Event) (f : fsnotifyProcess),
    run (collect pre batch) f = Blocked /\
    (endsLoop s = true ->
     run (collect (pre ++ s :: rest) batch) f = Done (loopResult s) /\
     trace (collect (pre ++ s :: rest) batch) f = trace (collect pre batch) f).
Proof.
  induction pre as [|x pre IH]; intros Hpre batch f.
  - split; [reflexivity|]. intros Hs.
    destruct s as [[ev|]|[e|]| |]; try discriminate Hs; split; reflexivity.
  - cbn [forallb] in Hpre. apply andb_true_iff in Hpre.
    destruct Hpre as [Hx Hpre].
    destruct x as [[ev|]|[e|]| |]; try discriminate Hx;
      cbn [app collect]; unfold tracef, go;
      rewrite !run_emit_bind, !trace_emit_bind;
      (split; [apply IH; exact Hpre|]);
      intros Hs;
      (split; [apply IH; assumption | f_equal; apply IH; assumption]).
Qed.

Lemma collect_ends_on_close_or_cancel_witness :
  run (collect [RecvEvent (Some (Sample.write "/src/a.go")); TimerFired;
                RecvEvent (Some (Sample.write "/src/b.go")); CtxDone] [])
      Sample.started = Done None /\
  spawned (effects (trace
    (collect [RecvEvent (Some (Sample.write "/src/a.go")); TimerFired;
              RecvEvent (Some (Sample.write "/src/b.go")); CtxDone] [])
    Sample.started))
  = [TaskDispatch [Sample.write "/src/a.go"]].
Proof.
  destruct (collect_ends_on_close_or_cancel
              [RecvEvent (Some (Sample.write "/src/a.go")); TimerFired;
               RecvEvent (Some (Sample.write "/src/b.go"))]
              CtxDone [] eq_refl [] Sample.started) as [_ Hend].
  destruct (Hend eq_refl) as [Hrun Htrace].
  split; [exact Hrun|]. cbn [app] in Htrace. rewrite Htrace. reflexivity.
Defined.

(** ** From notifications to guest commands *)




(** ** What watch returns and how it cleans up *)

Lemma emits_quiet (P : Effect -> Prop) {A} (m : M A) : quiet P m -> emits P m.
Proof.
  intros Hq f. destruct (Hq f) as [_ Hall].
  eapply Forall_impl; [|exact Hall]. intros s [_ Hs]. exact Hs.
Qed.

Lemma emits_bind (P : Effect -> Prop) {A B} (m : M A) (k : A -> M B) :
  emits P m -> (forall a, emits P (k a)) -> emits P (bind m k).
Proof.
  intros Hm Hk f. specialize (Hm f). unfold trace, bind in *.
  destruct (m f) as [[[a| |] f1] t1]; cbn [snd] in *; try assumption.
  specialize (Hk a f1). unfold trace in Hk.
  destruct (k a f1) as [[r2 f2] t2]. cbn [snd] in *.
  apply Forall_app. split; assumption.
Qed.

(** [watch] once the watcher exists: the deferred close follows what
    the rest of the function does, unless that is still waiting. *)
Lemma watch_created env f :
  newWatcher env = None ->
  let body :=
    (f <- get ;;
     r <- walkRoots env (dirs f) ;;
     match r with
     | Some e => ret (Some e)
     | None => store_alive true ;; collect (loopSelects env) []
     end) in
  run (watch env) f = run body f /\
  final (watch env) f = final body f /\
  trace (watch env) f
  = (NewWatcher, f) :: trace body f
    ++ match run body f with
       | Blocked => []
       | _ => [(WatcherClose, final body f)]
       end.
Proof.
  intros Hnw body. unfold run at 1, final at 1, trace at 1, watch.
  rewrite bind_emit, Hnw. fold body. unfold defer, run, final, trace.
  destruct (body f) as [[[a| |] f1] t1]; cbn [fst snd];
    rewrite ?app_nil_r; repeat split.
Qed.

Lemma watch_body_emits env :
  emits notClose
    (f <- get ;;
     r <- walkRoots env (dirs f) ;;
     match r with
     | Some e => ret (Some e)
     | None => store_alive true ;; collect (loopSelects env) []
     end).
Proof.
  apply emits_bind; [apply emits_quiet, quiet_get | intros f1].
  apply emits_bind.
  - apply emits_quiet, quiet_walkRoots; intros; discriminate.
  - intros r. destruct r; [apply emits_quiet, quiet_ret|].
    apply emits_bind.
    + intros f. constructor; [discriminate | constructor].
    + intros _. apply emits_quiet, quiet_collect; intros; discriminate.
Qed.

(** X7: when the watcher cannot be created, [watch] never closes one.
    When it is created, [watch] closes it exactly once, as its last
    action, on every way out: a return with or without error and a
    panic; while [watch] is still waiting in its loop the watcher stays
    open. *)
Theorem watch_closes_watcher_once (env : Env) (f : fsnotifyProcess) :
  (forall e, newWatcher env = Some e ->
             ~ In WatcherClose (effects (trace (watch env) f))) /\
  (newWatcher env = None ->
   (run (watch env) f = Blocked ->
    ~ In WatcherClose (effects (trace (watch env) f))) /\
   (run (watch env) f <> Blocked ->
    exists t,
      trace (watch env) f = t ++ [(WatcherClose, final (watch env) f)] /\
      ~ In WatcherClose (effects t))).
Proof.
  split.
  - intros e He. unfold watch, trace. rewrite bind_emit, He.
    cbn. intros [H|[]]. discriminate H.
  - intros Hnw.
    destruct (watch_created env f Hnw) as [Hrun [Hfin Htrace]].
    pose proof (watch_body_emits env f) as Hbody.
    set (body := (f <- get ;;
                  r <- walkRoots env (dirs f) ;;
                  match r with
                  | Some e => ret (Some e)
                  | None => store_alive true ;; collect (loopSelects env) []
                  end)) in *.
    assert (Hnone : ~ In WatcherClose (effects ((NewWatcher, f) :: trace body f))).
    { cbn [effects map fst]. intros [H|H]; [discriminate H|].
      apply in_map_iff in H. destruct H as [s [Hs Hin]].
      rewrite Forall_forall in Hbody. exact (Hbody s Hin Hs). }
    rewrite Hrun, Hfin, Htrace. split.
    + intros Hb. rewrite Hb, app_nil_r. exact Hnone.
    + intros Hb. exists ((NewWatcher, f) :: trace body f).
      split; [|exact Hnone].
      destruct (run body f); [reflexivity | reflexivity | destruct (Hb eq_refl)].
Qed.

Lemma watch_closes_watcher_once_witness :
  exists t,
    trace (watch Sample.envRunning) Sample.started
    = t ++ [(WatcherClose, final (watch Sample.envRunning) Sample.started)] /\
    ~ In WatcherClose (effects t).
Proof.
  apply (proj2 (watch_closes_watcher_once Sample.envRunning Sample.started)
           eq_refl).
  vm_compute. discriminate.
Defined.

(** X8: when the watcher is created and every root can be stat'ed,
    [watch] stores the alive flag and returns what its collection loop
    returns; the flag is true from then on, whatever the loop does. *)
Theorem watch_returns_what_the_loop_returns (env : Env) (f : fsnotifyProcess) :
  newWatcher env = None ->
  Forall (fun d => exists info, statRoot env d = inr info) (dirs f) ->
  run (watch env) f = run (collect (loopSelects env) []) f /\
  alive (final (watch env) f) = true /\
  In (StoreAlive true) (effects (trace (watch env) f)).
Proof.
  intros Hnw Hroots.
  destruct (watch_created env f Hnw) as [Hrun [Hfin Htrace]].
  pose proof (walkRoots_run env (dirs f) Hroots f) as Hwalk.
  rewrite Hrun, Hfin, Htrace. clear Hrun Hfin Htrace.
  set (f1 := final (walkRoots env (dirs f)) f).
  assert (Hstore : forall B (k : unit -> M B) f0,
            bind (store_alive true) k f0
            = (run (k tt) (set_alive true f0), final (k tt) (set_alive true f0),
               (StoreAlive true, set_alive true f0)
                 :: trace (k tt) (set_alive true f0))).
  { intros B k f0.
    rewrite (bind_done (store_alive true) k f0 tt (set_alive true f0)
               [(StoreAlive true, set_alive true f0)]) by reflexivity.
    reflexivity. }
  split; [|split].
  - rewrite (run_bind_done get _ f f eq_refl). cbn [final get fst snd].
    rewrite (run_bind_done _ _ f None Hwalk). fold f1.
    unfold run at 1. rewrite Hstore. cbn [fst].
    apply collect_run_any.
  - rewrite (final_bind_done get _ f f eq_refl). cbn [final get fst snd].
    fold (final (walkRoots env (dirs f)) f).
    rewrite (final_bind_done _ _ f None Hwalk). fold f1.
    unfold final at 1. rewrite Hstore. cbn [fst snd].
    rewrite collect_final. reflexivity.
  - cbn [effects map fst]. right. rewrite map_app. apply in_or_app. left.
    rewrite (trace_bind_done get _ f f eq_refl). cbn [trace get snd app].
    cbn [final fst snd].
    rewrite (trace_bind_done _ _ f None Hwalk). fold f1.
    rewrite map_app. apply in_or_app. right.
    unfold trace at 1. rewrite Hstore. cbn [snd map fst].
    left. reflexivity.
Qed.

Lemma watch_returns_what_the_loop_returns_witness :
  run (watch Sample.envRunning) Sample.started
  = run (collect (loopSelects Sample.envRunning) []) Sample.started /\
  alive (final (watch Sample.envRunning) Sample.started) = true /\
  In (StoreAlive true) (effects (trace (watch Sample.envRunning) Sample.started)).
Proof.
  apply (watch_returns_what_the_loop_returns Sample.envRunning Sample.started).
  - reflexivity.
  - constructor; [|constructor]. exists Sample.treeMixed. reflexivity.
Defined.

(** ** A root that cannot be stat'ed *)

Lemma statted_app es1 es2 : statted (es1 ++ es2) = statted es1 ++ statted es2.
Proof.
  induction es1 as [|e es1 IH]; [reflexivity|].
  destruct e; cbn [app statted]; rewrite ?IH; reflexivity.
Qed.

Lemma statted_none (t : Trace) :
  Forall (fun s => notStat (fst s)) t -> statted (effects t) = [].
Proof.
  induction 1 as [|s t Hs _ IH]; [reflexivity|].
  cbn [effects map]. fold (effects t).
  destruct s as [e f0]. destruct e; cbn [fst statted] in *;
    try exact IH. destruct Hs.
Qed.

(** The walk of one root stats that root and nothing else. *)
Lemma WalkDir_stats_root env dir f :
  statted (effects (trace (WalkDir env dir (watchFn env)) f)) = [dir].
Proof.
  unfold WalkDir. rewrite trace_emit_bind. cbn [effects map fst statted].
  f_equal. apply statted_none.
  apply (emits_bind notStat).
  - destruct (statRoot env dir) as [e|info].
    + apply emits_bind; [intros f0; repeat constructor | intros _].
      unfold watchFn. apply emits_bind;
        [intros f0; repeat constructor | intros _; intros f0; constructor].
    + apply emits_quiet.
      apply (quiet_walkDir notStat env dir (fun _ _ => True));
        intros; try split; exact Logic.I.
  - intros r. destruct r as [e|]; [destruct e|]; intros f0; constructor.
Qed.

Lemma WalkDir_missing_root env dir e f :
  statRoot env dir = inl e ->
  run (WalkDir env dir (watchFn env)) f = Panic.
Proof.
  intros Hstat. unfold WalkDir, run, watchFn, bind, emit, errorf.
  rewrite Hstat. reflexivity.
Qed.

Lemma walkRoots_missing_root env pre dir rest e :
  Forall (fun d => exists info, statRoot env d = inr info) pre ->
  statRoot env dir = inl e ->
  forall f,
    run (walkRoots env (pre ++ dir :: rest)) f = Panic /\
    statted (effects (trace (walkRoots env (pre ++ dir :: rest)) f))
    = pre ++ [dir].
Proof.
  intros Hpre Hdir.
  induction Hpre as [|d pre [info Hd] _ IH]; intros f; cbn [app walkRoots].
  - pose proof (WalkDir_missing_root env dir e f Hdir) as Hp.
    split.
    + apply (proj1 (run_bind_stuck _ _ f) Hp).
    + rewrite (proj1 (trace_bind_stuck _ _ f
                        (fun a H => ltac:(rewrite Hp in H; discriminate H)))).
      apply WalkDir_stats_root.
  - pose proof (WalkDir_run env d info f Hd) as Hok.
    rewrite (run_bind_done _ _ f None Hok).
    rewrite (trace_bind_done _ _ f None Hok).
    rewrite effects_app, statted_app, WalkDir_stats_root.
    destruct (IH (final (WalkDir env d (watchFn env)) f)) as [H1 H2].
    rewrite H1, H2. split; reflexivity.
Qed.

(** X9: when a root cannot be stat'ed, the walk function is handed a
    nil entry and dereferences it: [watch] panics.  The roots before it
    have been walked, the roots after it are not even stat'ed, the alive
    flag is never stored, and the deferred close of the watcher still
    runs as the last action. *)
Theorem watch_panics_on_missing_root
  (env : Env) (f : fsnotifyProcess)
  (pre : list string) (dir : string) (rest : list string) (e : error) :
  newWatcher env = None ->
  dirs f = pre ++ dir :: rest ->
  Forall (fun d => exists info, statRoot env d = inr info) pre ->
  statRoot env dir = inl e ->
  run (watch env) f = Panic /\
  statted (effects (trace (watch env) f)) = pre ++ [dir] /\
  existsb isStore (effects (trace (watch env) f)) = false /\
  alive (final (watch env) f) = alive f /\
  exists t, trace (watch env) f = t ++ [(WatcherClose, final (watch env) f)].
Proof.
  intros Hnw Hdirs Hpre Hdir.
  destruct (watch_created env f Hnw) as [Hrun [Hfin Htrace]].
  destruct (walkRoots_missing_root env pre dir rest e Hpre Hdir f)
    as [Hpanic Hstat].
  rewrite <- Hdirs in Hpanic, Hstat.
  assert (Hstuck : forall a, run (walkRoots env (dirs f)) f <> Done a).
  { intros a H. rewrite Hpanic in H. discriminate H. }
  set (body := (f <- get ;;
                r <- walkRoots env (dirs f) ;;
                match r with
                | Some e => ret (Some e)
                | None => store_alive true ;; collect (loopSelects env) []
                end)) in *.
  assert (Hbody_run : run body f = Panic).
  { unfold body. rewrite (run_bind_done get _ f f eq_refl).
    apply (proj1 (run_bind_stuck _ _ _) Hpanic). }
  assert (Hbody_trace : trace body f = trace (walkRoots env (dirs f)) f).
  { unfold body. rewrite (trace_bind_done get _ f f eq_refl).
    apply (proj1 (trace_bind_stuck _ _ _ Hstuck)). }
  assert (Hbody_final : final body f = final (walkRoots env (dirs f)) f).
  { unfold body. rewrite (final_bind_done get _ f f eq_refl).
    apply (proj2 (trace_bind_stuck _ _ _ Hstuck)). }
  assert (Hq : quiet notStore (walkRoots env (dirs f))).
  { apply quiet_walkRoots; intros; reflexivity. }
  destruct (Hq f) as [Halive Hall].
  rewrite Hrun, Hfin, Htrace, Hbody_run, Hbody_trace, Hbody_final.
  split; [reflexivity|]. split; [|split; [|split]].
  - cbn [effects map fst statted].
    fold (effects (trace (walkRoots env (dirs f)) f ++
                   [(WatcherClose, final (walkRoots env (dirs f)) f)])).
    rewrite effects_app, statted_app, Hstat. cbn. apply app_nil_r.
  - apply not_true_iff_false. intros Hex.
    apply existsb_exists in Hex. destruct Hex as [x [Hin Hx]].
    cbn [effects map fst] in Hin. destruct Hin as [<-|Hin]; [discriminate Hx|].
    rewrite map_app in Hin. apply in_app_or in Hin.
    destruct Hin as [Hin|[<-|[]]]; [|discriminate Hx].
    apply in_map_iff in Hin. destruct Hin as [s [<- Hs]].
    rewrite Forall_forall in Hall. destruct (Hall s Hs) as [_ Hn].
    unfold notStore in Hn. congruence.
  - exact Halive.
  - exists ((NewWatcher, f) :: trace (walkRoots env (dirs f)) f). reflexivity.
Qed.

Lemma watch_panics_on_missing_root_witness :
  run (watch Sample.envMissingRoot)
      {| guest := Some Sample.guestOk;
         dirs := ["/Users/u"; "/Volumes/gone"; "/tmp/x"];
         alive := false |}
  = Panic.
Proof.
  apply (watch_panics_on_missing_root Sample.envMissingRoot _
           ["/Users/u"] "/Volumes/gone" ["/tmp/x"]
           (ErrNew "no such file or directory")).
  - reflexivity.
  - reflexivity.
  - constructor; [|constructor]. exists Sample.treeMixed. reflexivity.
  - reflexivity.
Defined.

(** ** When the walk registers every directory *)

Lemma walkDir_Dir_trace env dir p n es err f :
  hiddenEntry n = false ->
  exists t f1,
    trace (walkDir dir (watchFn env) p (Dir n es err)) f
    = (Visit dir p, f) :: (WatcherAdd p, f)
      :: t ++ trace (walkEntries dir (watchFn env) p es) f1.
Proof.
  intros Hh. rewrite walkDir_Dir, trace_emit_bind.
  pose proof (watchFn_run env p (Dir n es err) None f) as Hfn.
  cbn [EntryName] in Hfn. rewrite Hh in Hfn.
  rewrite (trace_bind_done _ _ f None Hfn).
  rewrite trace_emit_bind.
  assert (Hfirst : exists t0,
            trace (watchFn env p (Some (Dir n es err)) None) f
            = (WatcherAdd p, f) :: t0).
  { unfold watchFn, trace. rewrite bind_ret. cbn [EntryName IsDir].
    rewrite Hh, bind_emit. eexists. reflexivity. }
  destruct Hfirst as [t0 ->].
  set (f0 := final (watchFn env p (Some (Dir n es err)) None) f).
  assert (Herr : run (match err with
                      | Some e =>
                          emit (Visit dir p) ;;
                          watchFn env p (Some (Dir n es err)) (Some e)
                      | None => ret None
                      end) f0 = Done None).
  { destruct err as [e|]; [|reflexivity].
    rewrite run_emit_bind.
    pose proof (watchFn_run env p (Dir n es (Some e)) (Some e) f0) as H.
    cbn [EntryName] in H. rewrite Hh in H. exact H. }
  rewrite (trace_bind_done _ _ f0 None Herr).
  set (second := match err with
                 | Some e =>
                     emit (Visit dir p) ;;
                     watchFn env p (Some (Dir n es err)) (Some e)
                 | None => ret None
                 end).
  exists (t0 ++ (FsReadDir dir p, f0) :: trace second f0), (final second f0).
  cbn [app]. rewrite <- app_assoc. reflexivity.
Qed.

Lemma walkEntries_sub env dir p (cs : list node) :
  (forall c, In c cs -> hiddenEntry (EntryName c) && negb (IsDir c) = false) ->
  forall c, In c cs ->
  forall f, exists f',
    incl (trace (walkDir dir (watchFn env) (path_Join p (EntryName c)) c) f')
         (trace (walkEntries dir (watchFn env) p cs) f).
Proof.
  induction cs as [|a cs IH]; intros Hcs c Hc f; [destruct Hc|].
  cbn [walkEntries].
  pose proof (walkDir_run env dir a (path_Join p (EntryName a)) f) as Hrun.
  rewrite (Hcs a (or_introl eq_refl)) in Hrun.
  rewrite (trace_bind_done _ _ f None Hrun).
  destruct Hc as [<-|Hc].
  - exists f. apply incl_appl, incl_refl.
  - destruct (IH (fun x Hx => Hcs x (or_intror Hx)) c Hc
                (final (walkDir dir (watchFn env) (path_Join p (EntryName a)) a) f))
      as [f' Hincl].
    exists f'. apply incl_appr. exact Hincl.
Qed.

Lemma noHiddenFiles_entry n es err c :
  noHiddenFiles (Dir n es err) = true -> In c es ->
  hiddenEntry (EntryName c) && negb (IsDir c) = false /\
  noHiddenFiles c = true.
Proof.
  intros Hd Hc. cbn [noHiddenFiles] in Hd. rewrite forallb_forall in Hd.
  specialize (Hd c Hc). apply andb_true_iff in Hd. destruct Hd as [H1 H2].
  split; [|exact H2].
  destruct (hiddenEntry (EntryName c)), (IsDir c); try reflexivity.
  discriminate H1.
Qed.

Lemma Reached_walked env dir root :
  noHiddenFiles root = true ->
  forall p d,
    Reached root p d ->
    noHiddenFiles d = true /\
    forall f, exists f',
      incl (trace (walkDir dir (watchFn env) p d) f')
           (trace (walkDir dir (watchFn env) "." root) f).
Proof.
  intros Hroot p d Hr.
  induction Hr as [|p n es err c Hr [IHn IH] Hh Hc].
  - split; [exact Hroot|]. intros f. exists f. apply incl_refl.
  - destruct (noHiddenFiles_entry n es err c IHn Hc) as [Hvis Hcn].
    split; [exact Hcn|]. intros f.
    destruct (IH f) as [f1 Hincl1].
    destruct (walkDir_Dir_trace env dir p n es err f1 Hh) as [t [f2 Htrace]].
    destruct (walkEntries_sub env dir p es
                (fun x Hx => proj1 (noHiddenFiles_entry n es err x IHn Hx))
                c Hc f2) as [f3 Hincl3].
    exists f3. intros s Hs. apply Hincl1. rewrite Htrace.
    right. right. apply in_or_app. right. apply Hincl3. exact Hs.
Qed.

(** X10: below a root that holds no hidden file and no hidden link, the
    walk registers every directory it should: each real directory with
    a visible name that is reached from the root through real
    directories with visible names is handed to [watcher.Add] under its
    walk path, also when [ReadDir] fails for it or for a directory above
    it after reporting the entries on the way. *)
Theorem walk_registers_all_without_hidden_files
  (env : Env) (dir : string) (info : node) (f : fsnotifyProcess)
  (p n : string) (es : list node) (err : option error) :
  statRoot env dir = inr info ->
  noHiddenFiles info = true ->
  Reached (rootEntry info) p (Dir n es err) ->
  hiddenEntry n = false ->
  In (WatcherAdd p) (effects (trace (WalkDir env dir (watchFn env)) f)).
Proof.
  intros Hstat Hclean Hr Hh.
  assert (Hroot : noHiddenFiles (rootEntry info) = true)
    by (destruct info; exact Hclean).
  destruct (Reached_walked env dir (rootEntry info) Hroot p _ Hr) as [_ Hsub].
  unfold WalkDir. rewrite trace_emit_bind, Hstat.
  destruct (trace_bind_prefix (walkDir dir (watchFn env) "." (rootEntry info))
              (fun r => match r with
                        | Some SkipDir => ret None
                        | _ => ret r
                        end) f) as [tl ->].
  destruct (Hsub f) as [f' Hincl].
  destruct (walkDir_Dir_trace env dir p n es err f' Hh) as [t [f2 Htrace]].
  assert (Hin : In (WatcherAdd p, f')
                   (trace (walkDir dir (watchFn env) "." (rootEntry info)) f)).
  { apply Hincl. rewrite Htrace. right. left. reflexivity. }
  unfold effects. apply in_map_iff. exists (WatcherAdd p, f').
  split; [reflexivity|]. right. apply in_or_app. left. exact Hin.
Qed.

Lemma walk_registers_all_without_hidden_files_witness :
  In (WatcherAdd "src/pkg")
     (effects (trace (WalkDir Sample.envRunning "/Users/u"
                              (watchFn Sample.envRunning)) New)).
Proof.
  apply (walk_registers_all_without_hidden_files
           Sample.envRunning "/Users/u" Sample.treeMixed New
           "src/pkg" "pkg" [] None).
  - reflexivity.
  - reflexivity.
  - exact (Reached_entry (rootEntry Sample.treeMixed) "src" "src"
             [Dir "pkg" [] None] None (Dir "pkg" [] None)
             (Reached_entry (rootEntry Sample.treeMixed) "." "." _ None
                (Dir "src" [Dir "pkg" [] None] None)
                (Reached_root _) eq_refl
                (or_intror (or_intror (or_introl eq_refl))))
             eq_refl (or_introl eq_refl)).
  - reflexivity.
Defined.

(** ** traverseDir *)

Lemma traverseDir_readable env parent n cs :
  traverseDir env parent (Dir n cs None)
  = (emit (OsReadDir (filepath_Join parent n)) ;;
     (emit (WatcherAdd (filepath_Join parent n)) ;;
      match addResult env (filepath_Join parent n) with
      | Some e =>
          tracef ""
            [AErr (ErrWrap "fsnotify: error adding '%s' to watch directories: %w"
                           [filepath_Join parent n] e)]
      | None =>
          tracef "fsnotify: added %s to watch directories"
                 [AStr (filepath_Join parent n)]
      end ;;
      traverseChildren env (filepath_Join parent n) cs)).
Proof.
  cbn [traverseDir EntryName].
  set (current := filepath_Join parent n).
  assert (Hloop : forall ds,
    (fix loop (cs0 : list node) : M (option error) :=
       match cs0 with
       | [] => ret None
       | child :: rest =>
           if negb (IsDir child) then loop rest
           else if HasPrefix (EntryName child) "." then
             tracef ""
               [AErr (ErrFmt "skipping hidden child directory '%s' of '%s'"
                             [EntryName child; current])] ;;
             loop rest
           else if Z.land (Mode.Perm (EntryType child)) Mode.ModeSymlink
                   =? Mode.ModeSymlink then
             tracef ""
               [AErr (ErrFmt "skipping symlink directory '%s' of '%s'"
                             [EntryName child; current])] ;;
             loop rest
           else
             r <- traverseDir env current child ;;
             match r with
             | Some e =>
                 ret (Some (ErrWrap
                              "error traversing child directory '%s' of '%s': %w"
                              [EntryName child; current] e))
             | None => loop rest
             end
       end) ds = traverseChildren env current ds).
  { induction ds as [|d1 rest IH]; [reflexivity|].
    cbn [traverseChildren]. rewrite <- IH. reflexivity. }
  rewrite Hloop. reflexivity.
Qed.

Lemma traverseDir_unreadable env parent n cs e :
  traverseDir env parent (Dir n cs (Some e))
  = (emit (OsReadDir (filepath_Join parent n)) ;;
     errorf ""
       [AErr (ErrWrap "error retrieving dirlist for '%s': %w"
                      [filepath_Join parent n] e)] ;;
     ret None).
Proof. reflexivity. Qed.

(** [Perm] keeps the nine permission bits, and the bit of
    [ModeSymlink] is not one of them. *)
Lemma Perm_has_no_symlink_bit (m : Z) :
  (Z.land (Mode.Perm m) Mode.ModeSymlink =? Mode.ModeSymlink) = false.
Proof.
  unfold Mode.Perm. rewrite <- Z.land_assoc.
  change (Z.land Mode.ModePerm Mode.ModeSymlink) with 0.
  rewrite Z.land_0_r. reflexivity.
Qed.

Section TraverseQuiet.
Variable env : Env.
Variable P : Effect -> Prop.
(** The directories [traverseDir] is allowed to be at. *)
Variable I : string -> node -> Prop.

Hypothesis Pread : forall p d, I p d -> P (OsReadDir p).
Hypothesis Padd : forall p n cs, I p (Dir n cs None) -> P (WatcherAdd p).
Hypothesis Plog :
  forall lvl fmt args,
    (forall a, args <> [AErr (ErrFmt "skipping symlink directory '%s' of '%s'" a)]) ->
    P (Log lvl fmt args).
Hypothesis Ichild :
  forall p n cs c,
    I p (Dir n cs None) -> In c cs -> IsDir c = true ->
    HasPrefix (EntryName c) "." = false ->
    I (filepath_Join p (EntryName c)) c.

Lemma quiet_traverseDir (d : node) :
  forall parent,
    IsDir d = true ->
    I (filepath_Join parent (EntryName d)) d ->
    quiet P (traverseDir env parent d).
Proof.
  induction d as [n|n t _|n cs err IH] using node_ind_nested;
    intros parent Hd HI; try discriminate Hd.
  cbn [EntryName] in HI. destruct err as [e|].
  - rewrite traverseDir_unreadable.
    apply quiet_bind; [apply quiet_emit, (Pread _ _ HI) | intros _].
    apply quiet_bind; [|intros _; apply quiet_ret].
    apply quiet_emit, Plog. intros a H. discriminate H.
  - rewrite traverseDir_readable.
    apply quiet_bind; [apply quiet_emit, (Pread _ _ HI) | intros _].
    apply quiet_bind; [apply quiet_emit, (Padd _ _ _ HI) | intros _].
    apply quiet_bind.
    + destruct (addResult env (filepath_Join parent n));
        apply quiet_emit, Plog; intros a H; discriminate H.
    + intros _.
      assert (Hcs : forall ds, incl ds cs ->
                quiet P (traverseChildren env (filepath_Join parent n) ds)).
      { induction ds as [|c rest IHds]; intros Hincl;
          cbn [traverseChildren]; [apply quiet_ret|].
        assert (Hc : In c cs) by (apply Hincl; left; reflexivity).
        assert (Hrest : quiet P (traverseChildren env (filepath_Join parent n) rest))
          by (apply IHds; intros x Hx; apply Hincl; right; exact Hx).
        destruct (IsDir c) eqn:Hdir; cbn [negb]; [|exact Hrest].
        destruct (HasPrefix (EntryName c) ".") eqn:Hhid.
        - apply quiet_bind; [|intros _; exact Hrest].
          apply quiet_emit, Plog. intros a H. discriminate H.
        - rewrite Perm_has_no_symlink_bit.
          apply quiet_bind.
          + rewrite Forall_forall in IH.
            apply (IH c Hc _ Hdir).
            apply (Ichild _ n cs c HI Hc Hdir Hhid).
          + intros r. destruct r; [apply quiet_ret | exact Hrest]. }
      apply Hcs, incl_refl.
Qed.
End TraverseQuiet.

(** [traverseDir] always returns [nil]. *)
Lemma traverseDir_run env (d : node) :
  forall parent f, run (traverseDir env parent d) f = Done None.
Proof.
  induction d as [n|n t IHt|n cs err IH] using node_ind_nested;
    intros parent f.
  - reflexivity.
  - assert (Hcs : forall current ds, incl ds t -> forall f',
              run (traverseChildren env current ds) f' = Done None).
    { intros current.
      induction ds as [|c rest IHds]; intros Hincl f'; [reflexivity|].
      cbn [traverseChildren].
      assert (Hc : In c t) by (apply Hincl; left; reflexivity).
      assert (Hrest : forall f0,
                run (traverseChildren env current rest) f0 = Done None)
        by (apply IHds; intros x Hx; apply Hincl; right; exact Hx).
      destruct (IsDir c); cbn [negb]; [|apply Hrest].
      destruct (HasPrefix (EntryName c) ".");
        [unfold tracef; rewrite run_emit_bind; apply Hrest|].
      rewrite Perm_has_no_symlink_bit.
      rewrite Forall_forall in IHt.
      rewrite (run_bind_done _ _ f' None (IHt c Hc current f')).
      apply Hrest. }
    assert (Heq : traverseDir env parent (Symlink n t)
                  = (emit (OsReadDir (filepath_Join parent n)) ;;
                     (emit (WatcherAdd (filepath_Join parent n)) ;;
                      match addResult env (filepath_Join parent n) with
                      | Some e =>
                          tracef ""
                            [AErr (ErrWrap
                               "fsnotify: error adding '%s' to watch directories: %w"
                               [filepath_Join parent n] e)]
                      | None =>
                          tracef "fsnotify: added %s to watch directories"
                                 [AStr (filepath_Join parent n)]
                      end ;;
                      traverseChildren env (filepath_Join parent n) t))).
    { pose proof (traverseDir_readable env parent n t) as H.
      cbn [traverseDir EntryName] in H |- *. exact H. }
    rewrite Heq, !run_emit_bind.
    erewrite run_bind_done;
      [|destruct (addResult env (filepath_Join parent n)); reflexivity].
    apply Hcs, incl_refl.
  - destruct err as [e|]; [reflexivity|].
    rewrite traverseDir_readable, !run_emit_bind.
    erewrite run_bind_done;
      [|destruct (addResult env (filepath_Join parent n)); reflexivity].
    assert (Hcs : forall ds, incl ds cs -> forall f',
              run (traverseChildren env (filepath_Join parent n) ds) f'
              = Done None).
    { induction ds as [|c rest IHds]; intros Hincl f'; [reflexivity|].
      cbn [traverseChildren].
      assert (Hc : In c cs) by (apply Hincl; left; reflexivity).
      assert (Hrest : forall f0,
                run (traverseChildren env (filepath_Join parent n) rest) f0
                = Done None)
        by (apply IHds; intros x Hx; apply Hincl; right; exact Hx).
      destruct (IsDir c); cbn [negb]; [|apply Hrest].
      destruct (HasPrefix (EntryName c) ".");
        [unfold tracef; rewrite run_emit_bind; apply Hrest|].
      rewrite Perm_has_no_symlink_bit.
      rewrite Forall_forall in IH.
      rewrite (run_bind_done _ _ f' None (IH c Hc _ f')).
      apply Hrest. }
    apply Hcs, incl_refl.
Qed.

Lemma traverseDir_traverseOk env parent n cs err :
  quiet (traverseOk (filepath_Join parent n) (Dir n cs err))
        (traverseDir env parent (Dir n cs err)).
Proof.
  apply (quiet_traverseDir env
           (traverseOk (filepath_Join parent n) (Dir n cs err))
           (Traversed (filepath_Join parent n) (Dir n cs err))).
  - intros p d H. exists d. exact H.
  - intros p n' cs' H. exists n', cs'. exact H.
  - intros lvl fmt args Hargs. cbn [traverseOk].
    destruct args as [|[s|z|[|msg|fmt' a|fmt' a inner]] [|x rest]];
      try exact Logic.I.
    intros ->. exact (Hargs a eq_refl).
  - intros p n' cs' c H Hc Hd Hh.
    exact (Traversed_child _ _ p n' cs' c H Hc Hd Hh).
  - reflexivity.
  - apply Traversed_top.
Qed.

(** X11: [traverseDir], started on a directory, always returns [nil],
    whatever cannot be read or registered below.  What it registers is
    the start directory if it can be read, and below it only readable
    directories with a name without a leading dot, reached through such
    directories; what it reads is reached in the same way.  Hidden
    directories, links and the content of unreadable directories are
    left alone. *)
Theorem traverseDir_registers_visible_readable_dirs
  (env : Env) (parent n : string) (cs : list node) (err : option error)
  (f : fsnotifyProcess) :
  let top := Dir n cs err in
  let p0 := filepath_Join parent n in
  let es := effects (trace (traverseDir env parent top) f) in
  run (traverseDir env parent top) f = Done None /\
  (forall p, In (WatcherAdd p) es ->
             exists n' cs', Traversed p0 top p (Dir n' cs' None)) /\
  (forall p, In (OsReadDir p) es -> exists d, Traversed p0 top p d).
Proof.
  intros top p0 es.
  pose proof (traverseDir_traverseOk env parent n cs err) as Hq.
  split; [apply traverseDir_run|]. split.
  - intros p Hin. exact (quiet_In _ _ f _ Hq Hin).
  - intros p Hin. exact (quiet_In _ _ f _ Hq Hin).
Qed.

Lemma traverseDir_registers_visible_readable_dirs_witness :
  exists n' cs',
    Traversed "/Users/u" Sample.treeMixed "/Users/u/src" (Dir n' cs' None).
Proof.
  apply (proj1 (proj2 (traverseDir_registers_visible_readable_dirs
                         Sample.envRunning "/Users" "u"
                         [Dir ".git" [Dir "objects" [] None] None;
                          Symlink "lnk" [Dir "x" [] None];
                          Dir "src" [Dir "pkg" [] None] None] None New))).
  vm_compute. do 5 right. left. reflexivity.
Defined.

(** X12: the test for a link in [traverseDir] never holds: [Perm]
    keeps the permission bits only, so the result never has the bit of
    [ModeSymlink].  [traverseDir] therefore never logs that it skips a
    link; a link among the children is passed over by the test for a
    directory, without a log line. *)
Theorem traverseDir_symlink_test_is_dead :
  (forall m : Z,
     (Z.land (Mode.Perm m) Mode.ModeSymlink =? Mode.ModeSymlink) = false) /\
  (forall env parent n cs err f lvl fmt a,
     ~ In (Log lvl fmt
             [AErr (ErrFmt "skipping symlink directory '%s' of '%s'" a)])
          (effects (trace (traverseDir env parent (Dir n cs err)) f))) /\
  (forall env current name target rest,
     traverseChildren env current (Symlink name target :: rest)
     = traverseChildren env current rest).
Proof.
  split; [exact Perm_has_no_symlink_bit|]. split.
  - intros env parent n cs err f lvl fmt a Hin.
    pose proof (quiet_In _ _ f _ (traverseDir_traverseOk env parent n cs err) Hin)
      as H.
    cbn [traverseOk] in H. exact (H eq_refl).
  - reflexivity.
Qed.

Lemma traverseChildren_sub env current (cs : list node) :
  forall c,
    In c cs -> IsDir c = true -> HasPrefix (EntryName c) "." = false ->
    forall f, exists f',
      incl (trace (traverseDir env current c) f')
           (trace (traverseChildren env current cs) f).
Proof.
  induction cs as [|a cs IH]; intros c Hc Hd Hh f; [destruct Hc|].
  cbn [traverseChildren].
  destruct (IsDir a) eqn:Hda; cbn [negb].
  - destruct (HasPrefix (EntryName a) ".") eqn:Hha.
    + destruct Hc as [<-|Hc]; [congruence|].
      unfold tracef. rewrite trace_emit_bind.
      destruct (IH c Hc Hd Hh f) as [f' Hincl].
      exists f'. apply incl_tl. exact Hincl.
    + rewrite Perm_has_no_symlink_bit.
      rewrite (trace_bind_done _ _ f None (traverseDir_run env a current f)).
      destruct Hc as [<-|Hc].
      * exists f. apply incl_appl, incl_refl.
      * destruct (IH c Hc Hd Hh (final (traverseDir env current a) f))
          as [f' Hincl].
        exists f'. apply incl_appr. exact Hincl.
  - destruct Hc as [<-|Hc]; [congruence|]. exact (IH c Hc Hd Hh f).
Qed.

Lemma traverseDir_readable_trace env parent n cs f :
  exists t f1,
    trace (traverseDir env parent (Dir n cs None)) f
    = (OsReadDir (filepath_Join parent n), f)
      :: (WatcherAdd (filepath_Join parent n), f)
      :: t :: trace (traverseChildren env (filepath_Join parent n) cs) f1.
Proof.
  rewrite traverseDir_readable, !trace_emit_bind.
  destruct (addResult env (filepath_Join parent n)); unfold tracef;
    rewrite trace_emit_bind; eexists; eexists; reflexivity.
Qed.

Lemma Traversed_traversed env parent top :
  forall p d,
    Traversed (filepath_Join parent (EntryName top)) top p d ->
    exists par,
      p = filepath_Join par (EntryName d) /\
      forall f, exists f',
        incl (trace (traverseDir env par d) f')
             (trace (traverseDir env parent top) f).
Proof.
  intros p d Ht.
  induction Ht as [|p n cs c Ht [par [Hp IH]] Hc Hd Hh].
  - exists parent. split; [reflexivity|]. intros f. exists f. apply incl_refl.
  - exists p. split; [reflexivity|]. intros f.
    destruct (IH f) as [f1 Hincl1].
    cbn [EntryName] in Hp.
    destruct (traverseDir_readable_trace env par n cs f1) as [t [f2 Htrace]].
    rewrite <- Hp in Htrace.
    destruct (traverseChildren_sub env p cs c Hc Hd Hh f2) as [f3 Hincl3].
    exists f3. intros s Hs. apply Hincl1. rewrite Htrace.
    right. right. right. apply Hincl3. exact Hs.
Qed.

(** X13: [traverseDir] registers every directory it should: a readable
    directory below the start directory, with a name without a leading
    dot and reached through readable directories with such names, is
    handed to [watcher.Add] under its full path, whatever hidden files
    or other entries lie next to it. *)
Theorem traverseDir_registers_every_visible_dir
  (env : Env) (parent : string) (top : node) (f : fsnotifyProcess)
  (p n : string) (cs : list node) :
  Traversed (filepath_Join parent (EntryName top)) top p (Dir n cs None) ->
  In (WatcherAdd p) (effects (trace (traverseDir env parent top) f)).
Proof.
  intros Ht.
  destruct (Traversed_traversed env parent top p _ Ht) as [par [Hp Hsub]].
  destruct (Hsub f) as [f' Hincl].
  destruct (traverseDir_readable_trace env par n cs f') as [t [f2 Htrace]].
  cbn [EntryName] in Hp. rewrite <- Hp in Htrace.
  unfold effects. apply in_map_iff. exists (WatcherAdd p, f').
  split; [reflexivity|]. apply Hincl. rewrite Htrace.
  right. left. reflexivity.
Qed.

Lemma traverseDir_registers_every_visible_dir_witness :
  In (WatcherAdd "/Users/u/src")
     (effects (trace (traverseDir Sample.envHiddenFile "/Users"
                                  Sample.treeHiddenFile) New)).
Proof.
  apply (traverseDir_registers_every_visible_dir
           Sample.envHiddenFile "/Users" Sample.treeHiddenFile New
           "/Users/u/src" "src" [Dir "pkg" [] None]).
  exact (Traversed_child "/Users/u" Sample.treeHiddenFile "/Users/u" "u"
           [File ".gitignore"; Dir "src" [Dir "pkg" [] None] None]
           (Dir "src" [Dir "pkg" [] None] None)
           (Traversed_top _ _) (or_intror (or_introl eq_refl))
           eq_refl eq_refl).
Defined.

(** ** The k3s and MetalLB installers *)

(** X14: [installK3sCache] keeps the chain it is given and queues the
    four steps that fetch and unpack the image archive of the guest's
    architecture.  For the containerd runtime it then announces the
    stage "loading oci images" and queues the import with [ctr], for
    the docker runtime the same stage and [docker load]; for any other
    runtime it queues nothing more.  The loading step runs its command
    and returns [nil] in every guest: a failed import is logged as two
    warnings and never stops the chain. *)
Theorem installK3sCache_load_never_fails
  (containerdName dockerName goArch : string) (log : list (string * string))
  (containerRuntime : string) (conf : Kubernetes) (a : list ChainCall) :
  let imageTar := ("k3s-airgap-images-" ++ goArch ++ ".tar")%string in
  let downloadPathTar := ("/tmp/" ++ imageTar)%string in
  let downloadPathTarGz := ("/tmp/" ++ (imageTar ++ ".gz"))%string in
  let url := ("https://github.com/k3s-io/k3s/releases/download/"
              ++ Version conf ++ "/" ++ (imageTar ++ ".gz"))%string in
  let airGapDir := "/var/lib/rancher/k3s/agent/images/" in
  let fetch :=
    [ChainAdd (download url downloadPathTarGz);
     ChainAdd (guestRun ["gzip"; "-f"; "-d"; downloadPathTarGz]);
     ChainAdd (guestRun ["sudo"; "mkdir"; "-p"; airGapDir]);
     ChainAdd (guestRun ["sudo"; "cp"; downloadPathTar; airGapDir])] in
  let load args :=
    [ChainStage "loading oci images"; ChainAdd (loadImages log args)] in
  installK3sCache containerdName dockerName goArch log containerRuntime conf a
  = a ++ fetch
      ++ (if String.eqb containerRuntime containerdName then
            load ["sudo"; "ctr"; "-n"; "k8s.io"; "images"; "import";
                  "--all-platforms"; downloadPathTar]
          else if String.eqb containerRuntime dockerName then
            load ["sudo"; "docker"; "load"; "-i"; downloadPathTar]
          else []) /\
  forall args vm,
    loadImages log args vm
    = (VRun args
       :: match vmRun vm args with
          | Some err =>
              [VWarn log [AErr (ErrWrap "error loading oci images: %w" [] err)];
               VWarn log
                 [AStr "startup may delay a bit as images will be pulled from oci registry"]]
          | None => []
          end,
       None).
Proof.
  cbv zeta. split.
  - unfold installK3sCache.
    destruct (String.eqb containerRuntime containerdName);
      [|destruct (String.eqb containerRuntime dockerName)];
      rewrite <- ?app_assoc, ?app_nil_r; reflexivity.
  - intros args vm. unfold loadImages.
    destruct (vmRun vm args); reflexivity.
Qed.

(** X15: the step of [InstallMetallb] that renders the configuration
    writes to the guest only when the embedded file was read, parsed
    and executed with the address range as [IpAddressRange], and then
    writes the rendered text to the configuration path.  It returns
    [nil] only when that write happened and succeeded; a failure to
    read, parse or execute is returned wrapped and nothing is written.
    A failure to execute is reported as a parsing error. *)
Theorem renderMetallbConfig_writes_only_rendered
  (path cidrBlock : string) (vm : VM) :
  (forall p bytes,
     In (VWrite p bytes) (fst (renderMetallbConfig path cidrBlock vm)) ->
     p = path /\
     exists install,
       embeddedRead vm "metallb/config.yaml" = inr install /\
       tmplParse vm install = None /\
       tmplExecute vm install [("IpAddressRange", cidrBlock)] = inr bytes) /\
  (snd (renderMetallbConfig path cidrBlock vm) = None ->
   exists bytes,
     fst (renderMetallbConfig path cidrBlock vm) = [VWrite path bytes] /\
     vmWrite vm path bytes = None) /\
  (forall install err,
     embeddedRead vm "metallb/config.yaml" = inr install ->
     tmplParse vm install = None ->
     tmplExecute vm install [("IpAddressRange", cidrBlock)] = inl err ->
     renderMetallbConfig path cidrBlock vm
     = ([], Some (ErrWrap "error parsing embedded metallb config: %w" [] err))).
Proof.
  unfold renderMetallbConfig.
  destruct (embeddedRead vm "metallb/config.yaml") as [e|install] eqn:Hread.
  - split; [intros p bytes []|]. split; [intros H; discriminate H|].
    intros install err H. discriminate H.
  - destruct (tmplParse vm install) as [e|] eqn:Hparse.
    + split; [intros p bytes []|]. split; [intros H; discriminate H|].
      intros install' err H Hp. injection H as <-. congruence.
    + destruct (tmplExecute vm install [("IpAddressRange", cidrBlock)])
        as [e|bytes] eqn:Hexec.
      * split; [intros p b []|]. split; [intros H; discriminate H|].
        intros install' err H _ He. injection H as <-.
        rewrite Hexec in He. injection He as ->. reflexivity.
      * split; [|split].
        -- intros p b [H|[]]. injection H as <- <-.
           split; [reflexivity|]. exists install. auto.
        -- intros H. exists bytes. split; [reflexivity | exact H].
        -- intros install' err H _ He. injection H as <-. congruence.
Qed.

Lemma renderMetallbConfig_writes_only_rendered_witness :
  renderMetallbConfig "/tmp/metallb-config.yaml" "192.168.5.240/28" vmRefusing
  = ([], Some (ErrWrap "error parsing embedded metallb config: %w" []
                       (ErrNew "template: no such field"))).
Proof.
  apply (proj2 (proj2 (renderMetallbConfig_writes_only_rendered
                         "/tmp/metallb-config.yaml" "192.168.5.240/28"
                         vmRefusing))
           "addresses: {{.IpAddressRange}}"); reflexivity.
Defined.

Lemma installK3sBinary_appends goArch conf a :
  installK3sBinary goArch conf a = a ++ installK3sBinary goArch conf [].
Proof. reflexivity. Qed.

Lemma installK3sCache_appends cName dName goArch log rt conf a :
  installK3sCache cName dName goArch log rt conf a
  = a ++ installK3sCache cName dName goArch log rt conf [].
Proof.
  unfold installK3sCache.
  destruct (String.eqb rt cName); [|destruct (String.eqb rt dName)];
    rewrite <- ?app_assoc; reflexivity.
Qed.

Lemma installK3sCluster_appends cName dName log rt conf ip a :
  installK3sCluster cName dName log rt conf ip a
  = a ++ removelast (installK3sCluster cName dName log rt conf ip [])
      ++ [ChainAdd (guestRun
            ["sh"; "-c";
             ("INSTALL_K3S_SKIP_DOWNLOAD=true INSTALL_K3S_SKIP_ENABLE=true k3s-install.sh "
              ++ String.concat " " (k3sArgs cName dName rt conf ip))%string])].
Proof. reflexivity. Qed.

Lemma queued_app cs1 cs2 : queued (cs1 ++ cs2) = queued cs1 ++ queued cs2.
Proof.
  induction cs1 as [|c cs1 IH]; [reflexivity|].
  destruct c; cbn [app queued]; rewrite ?IH; reflexivity.
Qed.

(** X16: [installK3s] keeps the chain it is given, in order, and adds
    to it: nine steps, or ten when the runtime is containerd or docker.
    Whatever the runtime, the architecture and the configuration, the
    last step added is the run of [k3s-install.sh] through [sh -c], and
    that step returns what the guest returns for it. *)
Theorem installK3s_appends_and_ends_with_installer
  (containerdName dockerName goArch : string) (log : list (string * string))
  (containerRuntime : string) (conf : Kubernetes) (ipAddress : string)
  (a : list ChainCall) :
  let command :=
    ["sh"; "-c";
     ("INSTALL_K3S_SKIP_DOWNLOAD=true INSTALL_K3S_SKIP_ENABLE=true k3s-install.sh "
      ++ String.concat " "
           (k3sArgs containerdName dockerName containerRuntime conf ipAddress))%string] in
  exists added,
    installK3s containerdName dockerName goArch log containerRuntime conf
               ipAddress a
    = a ++ added ++ [ChainAdd (guestRun command)] /\
    length (queued (added ++ [ChainAdd (guestRun command)]))
    = (if String.eqb containerRuntime containerdName
          || String.eqb containerRuntime dockerName
       then 10 else 9)%nat /\
    forall vm, guestRun command vm = ([VRun command], vmRun vm command).
Proof.
  intros command.
  exists (installK3sBinary goArch conf []
          ++ installK3sCache containerdName dockerName goArch log
               containerRuntime conf []
          ++ removelast (installK3sCluster containerdName dockerName log
                           containerRuntime conf ipAddress [])).
  split; [|split; [|reflexivity]].
  - unfold installK3s.
    rewrite (installK3sCluster_appends containerdName dockerName log
               containerRuntime conf ipAddress
               (installK3sCache containerdName dockerName goArch log
                  containerRuntime conf (installK3sBinary goArch conf a))).
    rewrite (installK3sCache_appends containerdName dockerName goArch log
               containerRuntime conf (installK3sBinary goArch conf a)).
    rewrite (installK3sBinary_appends goArch conf a).
    rewrite <- !app_assoc. reflexivity.
  - rewrite <- !app_assoc, !queued_app, !length_app.
    unfold installK3sCache.
    destruct (String.eqb containerRuntime containerdName);
      [|destruct (String.eqb containerRuntime dockerName)]; reflexivity.
Qed.

(** ** The alive flag and the end of registration *)

Lemma waitForLima_final (selects : list GateSelect) :
  forall f, final (waitForLima selects) f = f.
Proof.
  induction selects as [|s rest IH]; intros f; cbn [waitForLima];
    unfold tracef, final; rewrite bind_emit; cbn [fst snd];
    [reflexivity|].
  destruct s as [|inst]; [reflexivity|].
  rewrite bind_emit. cbn [fst snd].
  destruct inst as [e|[|]]; try reflexivity; apply IH.
Qed.

Lemma clean_mounts_are_mountAt (mounts : list Mount) :
  Forall (fun m => exists p, CleanPath m = inr p) mounts ->
  exists ps, mounts = map mountAt ps.
Proof.
  induction 1 as [|m rest [p Hp] _ [ps IH]]; [exists []; reflexivity|].
  exists (p :: ps). cbn [map]. rewrite <- IH. f_equal.
  destruct m as [c]. cbn [CleanPath] in Hp. subst c. reflexivity.
Qed.

Lemma no_store_in (t : Trace) b :
  Forall (fun s => isStore (fst s) = false) t ->
  ~ In (StoreAlive b) (effects t).
Proof.
  intros Hall Hin. unfold effects in Hin. apply in_map_iff in Hin.
  destruct Hin as [s [Hs Hin]]. rewrite Forall_forall in Hall.
  specialize (Hall s Hin). rewrite Hs in Hall. discriminate Hall.
Qed.

(** [Start] on a new process up to the call of [watch]: with a guest in
    the context, a gate that lets it through and mounts that resolve,
    [Start] is what the gate and the resolution do, none of which
    stores the flag or touches a directory, followed by [watch]. *)
Lemma Start_enters_watch env g ps :
  ctxValue env = CtxGuest g ->
  run (waitForLima (gateSelects env)) (set_guest g New) = Done tt ->
  instanceConfig env = inr (map mountAt ps) ->
  exists before,
    trace (Start env) New = before ++ trace (watch env) (readyToWatch g ps) /\
    final (Start env) New = final (watch env) (readyToWatch g ps) /\
    Forall (fun s => Alive (snd s) = Some (ErrNew "not running") /\
                     isStore (fst s) = false /\
                     isTraversal (fst s) = false) before.
Proof.
  intros Hctx Hgate Hcfg.
  set (f1 := set_guest g New) in *.
  destruct (resolveMounts_ok ps [] f1) as [Hrun [Hfin _]].
  rewrite app_nil_r in Hrun, Hfin.
  change (set_dirs (dirs f1 ++ map (fun p => TrimSuffix p "/") ps) f1)
    with (readyToWatch g ps) in Hrun, Hfin.
  cbn [resolveMounts] in Hrun, Hfin.
  change (run (ret None) (readyToWatch g ps)) with (@Done (option error) None)
    in Hrun.
  change (final (ret (@None error)) (readyToWatch g ps))
    with (readyToWatch g ps) in Hfin.
  exists (trace (waitForLima (gateSelects env)) f1
          ++ (LimaInstanceConfig, f1) :: trace (resolveMounts (map mountAt ps)) f1).
  unfold Start. rewrite Hctx, Hcfg. cbn [asGuest].
  assert (Hmod : run (modify (set_guest g)) New = Done tt) by reflexivity.
  split; [|split].
  - rewrite (trace_bind_done _ _ New tt Hmod).
    change (final (modify (set_guest g)) New) with f1.
    change (trace (modify (set_guest g)) New) with (@nil Snap). cbn [app].
    rewrite (trace_bind_done _ _ f1 tt Hgate), waitForLima_final.
    rewrite trace_emit_bind.
    rewrite (trace_bind_done _ _ f1 None Hrun), Hfin.
    rewrite <- app_assoc. reflexivity.
  - rewrite (final_bind_done _ _ New tt Hmod).
    change (final (modify (set_guest g)) New) with f1.
    rewrite (final_bind_done _ _ f1 tt Hgate), waitForLima_final.
    unfold final at 1. rewrite bind_emit. cbn [fst snd].
    fold (final (r <- resolveMounts (map mountAt ps) ;;
                 match r with
                 | Some e => ret (Some e)
                 | None => watch env
                 end) f1).
    rewrite (final_bind_done _ _ f1 None Hrun), Hfin. reflexivity.
  - assert (Hwait : quiet afterStore (waitForLima (gateSelects env)))
      by (apply quiet_waitForLima; intros; split; reflexivity).
    assert (Hres : quiet afterStore (resolveMounts (map mountAt ps)))
      by (apply quiet_resolveMounts; intros; split; reflexivity).
    destruct (Hwait f1) as [_ H1]. destruct (Hres f1) as [_ H2].
    apply Forall_app. split; [|constructor].
    + eapply Forall_impl; [|exact H1].
      intros s [Hs [Ha Hb]]. split; [apply Alive_false; exact Hs|].
      split; assumption.
    + repeat split.
    + eapply Forall_impl; [|exact H2].
      intros s [Hs [Ha Hb]]. split; [apply Alive_false; exact Hs|].
      split; assumption.
Qed.

(** [watch] when the walk of all roots has returned: the store of the
    flag is the next action, and nothing after it stores the flag or
    touches a directory. *)
Lemma watch_after_walk env fr :
  newWatcher env = None ->
  alive fr = false ->
  run (walkRoots env (dirs fr)) fr = Done None ->
  exists tl,
    trace (watch env) fr
    = (NewWatcher, fr) :: trace (walkRoots env (dirs fr)) fr
      ++ (StoreAlive true, set_alive true (final (walkRoots env (dirs fr)) fr))
      :: tl /\
    Forall (fun s => Alive (snd s) = Some (ErrNew "not running") /\
                     isStore (fst s) = false)
           (trace (walkRoots env (dirs fr)) fr) /\
    Forall (fun s => Alive (snd s) = None /\
                     isStore (fst s) = false /\
                     isTraversal (fst s) = false) tl /\
    Alive (final (watch env) fr) = None.
Proof.
  intros Hnw Hfr Hwalk.
  destruct (watch_created env fr Hnw) as [Hrun [Hfin Htrace]].
  set (fw := final (walkRoots env (dirs fr)) fr).
  set (f2 := set_alive true fw).
  set (body := (f <- get ;;
                r <- walkRoots env (dirs f) ;;
                match r with
                | Some e => ret (Some e)
                | None => store_alive true ;; collect (loopSelects env) []
                end)) in *.
  assert (Hstore :
    bind (store_alive true) (fun _ => collect (loopSelects env) []) fw
    = (run (collect (loopSelects env) []) f2, final (collect (loopSelects env) []) f2,
       (StoreAlive true, f2) :: trace (collect (loopSelects env) []) f2)).
  { rewrite (bind_done (store_alive true) _ fw tt f2 [(StoreAlive true, f2)])
      by reflexivity.
    reflexivity. }
  assert (Hbt : trace body fr
                = trace (walkRoots env (dirs fr)) fr
                  ++ (StoreAlive true, f2) :: trace (collect (loopSelects env) []) f2).
  { unfold body. rewrite (trace_bind_done get _ fr fr eq_refl).
    cbn [trace get snd app final fst].
    rewrite (trace_bind_done _ _ fr None Hwalk). fold fw.
    unfold trace at 2. rewrite Hstore. reflexivity. }
  assert (Hbf : final body fr = f2).
  { unfold body. rewrite (final_bind_done get _ fr fr eq_refl).
    cbn [final get fst snd].
    fold (final (walkRoots env (dirs fr)) fr).
    fold (final (r <- walkRoots env (dirs fr) ;;
                 match r with
                 | Some e => ret (Some e)
                 | None => store_alive true ;; collect (loopSelects env) []
                 end) fr).
    rewrite (final_bind_done _ _ fr None Hwalk). fold fw.
    unfold final at 1. rewrite Hstore. cbn [fst snd].
    apply collect_final. }
  assert (Hcollect : quiet afterStore (collect (loopSelects env) []))
    by (apply quiet_collect; intros; split; reflexivity).
  destruct (Hcollect f2) as [_ Hc].
  assert (Hwq : quiet notStore (walkRoots env (dirs fr)))
    by (apply quiet_walkRoots; intros; reflexivity).
  destruct (Hwq fr) as [_ Hw].
  exists (trace (collect (loopSelects env) []) f2
          ++ match run body fr with
             | Blocked => []
             | _ => [(WatcherClose, final body fr)]
             end).
  split; [|split; [|split]].
  - rewrite Htrace, Hbt. rewrite <- app_assoc. reflexivity.
  - eapply Forall_impl; [|exact Hw].
    intros s [Hs Hn]. split; [apply Alive_false; congruence | exact Hn].
  - apply Forall_app. split.
    + eapply Forall_impl; [|exact Hc].
      intros s [Hs [Ha Hb]]. split; [apply Alive_true; exact Hs|].
      split; assumption.
    + rewrite Hbf. destruct (run body fr); repeat constructor.
  - rewrite Hfin, Hbf. reflexivity.
Qed.

(** [watch] when the watcher cannot be created or the walk of the roots
    does not return [nil]: the flag is not stored. *)
Lemma watch_without_store env fr :
  newWatcher env <> None \/ run (walkRoots env (dirs fr)) fr <> Done None ->
  Forall (fun s => isStore (fst s) = false) (trace (watch env) fr).
Proof.
  intros Hno.
  destruct (newWatcher env) as [e|] eqn:Hnw.
  - unfold watch, trace. rewrite bind_emit, Hnw. repeat constructor.
  - destruct Hno as [Hno|Hno]; [destruct (Hno eq_refl)|].
    destruct (watch_created env fr Hnw) as [_ [_ Htrace]].
    rewrite Htrace. clear Htrace.
    assert (Hwq : quiet notStore (walkRoots env (dirs fr)))
      by (apply quiet_walkRoots; intros; reflexivity).
    destruct (Hwq fr) as [_ Hw].
    assert (Hwalk : Forall (fun s => isStore (fst s) = false)
                           (trace (walkRoots env (dirs fr)) fr)).
    { eapply Forall_impl; [|exact Hw]. intros s [_ Hn]. exact Hn. }
    assert (Hbt :
      trace (f <- get ;;
             r <- walkRoots env (dirs f) ;;
             match r with
             | Some e => ret (Some e)
             | None => store_alive true ;; collect (loopSelects env) []
             end) fr
      = trace (walkRoots env (dirs fr)) fr).
    { rewrite (trace_bind_done get _ fr fr eq_refl).
      cbn [trace get snd app final fst].
      destruct (run (walkRoots env (dirs fr)) fr) as [[e|]| |] eqn:Hr.
      - rewrite (trace_bind_done _ _ fr (Some e) Hr). apply app_nil_r.
      - destruct (Hno eq_refl).
      - apply (proj1 (trace_bind_stuck _ _ fr
                        (fun a H => ltac:(rewrite Hr in H; discriminate H)))).
      - apply (proj1 (trace_bind_stuck _ _ fr
                        (fun a H => ltac:(rewrite Hr in H; discriminate H)))). }
    rewrite Hbt. constructor; [reflexivity|].
    apply Forall_app. split; [exact Hwalk|].
    match goal with
    | |- Forall _ (match ?r with _ => _ end) => destruct r
    end; repeat constructor.
Qed.

Lemma Start_stuck_at_gate env g :
  ctxValue env = CtxGuest g ->
  (forall a, run (waitForLima (gateSelects env)) (set_guest g New) <> Done a) ->
  trace (Start env) New = trace (waitForLima (gateSelects env)) (set_guest g New).
Proof.
  intros Hctx Hstuck. unfold Start. rewrite Hctx. cbn [asGuest].
  rewrite (trace_bind_done (modify (set_guest g)) _ New tt eq_refl).
  change (final (modify (set_guest g)) New) with (set_guest g New).
  change (trace (modify (set_guest g)) New) with (@nil Snap). cbn [app].
  apply (proj1 (trace_bind_stuck _ _ _ Hstuck)).
Qed.

(** C3: [Alive] fails on a new process.  Every run of [Start] on it is
    a first part in which [Alive] fails at every moment and the flag is
    never stored, followed by a part that, if there is one, begins with
    the one store of the flag, [true], after which [Alive] succeeds at
    every moment and at the end of [Start], the flag is not stored
    again and no directory is touched.  Registration, the walk of all
    roots by [watch], decides which: when [Start] gets as far as the
    walk and the walk of all roots returns, the run is what precedes
    the walk, in which no directory is touched, then the creation of
    the watcher and the walk, with [Alive] failing throughout, then at
    once the store of [true] and the rest with [Alive] succeeding; and
    whenever the flag is stored in a run of [Start], the value is
    [true] and [Start] has got that far: the guest is in the context,
    the gate has let it through, the mounts have resolved, the watcher
    exists and the walk of all roots has returned. *)
Theorem Alive_tracks_registration (env : Env) :
  Alive New = Some (ErrNew "not running") /\
  (exists pre post,
     trace (Start env) New = pre ++ post /\
     Forall (fun s => Alive (snd s) = Some (ErrNew "not running") /\
                      isStore (fst s) = false) pre /\
     ((post = [] /\
       Alive (final (Start env) New) = Some (ErrNew "not running")) \/
      (exists f1 tl,
         post = (StoreAlive true, f1) :: tl /\
         Alive f1 = None /\
         Forall (fun s => Alive (snd s) = None /\
                          isStore (fst s) = false /\
                          isTraversal (fst s) = false) tl /\
         Alive (final (Start env) New) = None))) /\
  (forall g ps,
     ctxValue env = CtxGuest g ->
     run (waitForLima (gateSelects env)) (set_guest g New) = Done tt ->
     instanceConfig env = inr (map mountAt ps) ->
     newWatcher env = None ->
     run (walkRoots env (dirs (readyToWatch g ps))) (readyToWatch g ps)
     = Done None ->
     exists before tl,
       trace (Start env) New
       = before
         ++ (NewWatcher, readyToWatch g ps)
         :: trace (walkRoots env (dirs (readyToWatch g ps))) (readyToWatch g ps)
         ++ (StoreAlive true,
             set_alive true
               (final (walkRoots env (dirs (readyToWatch g ps)))
                      (readyToWatch g ps)))
         :: tl /\
       Forall (fun s => Alive (snd s) = Some (ErrNew "not running") /\
                        isStore (fst s) = false /\
                        isTraversal (fst s) = false) before /\
       Alive (readyToWatch g ps) = Some (ErrNew "not running") /\
       Forall (fun s => Alive (snd s) = Some (ErrNew "not running") /\
                        isStore (fst s) = false)
              (trace (walkRoots env (dirs (readyToWatch g ps)))
                     (readyToWatch g ps)) /\
       Forall (fun s => Alive (snd s) = None /\
                        isStore (fst s) = false /\
                        isTraversal (fst s) = false) tl /\
       Alive (final (Start env) New) = None) /\
  (forall b,
     In (StoreAlive b) (effects (trace (Start env) New)) ->
     b = true /\
     exists g ps,
       ctxValue env = CtxGuest g /\
       run (waitForLima (gateSelects env)) (set_guest g New) = Done tt /\
       instanceConfig env = inr (map mountAt ps) /\
       newWatcher env = None /\
       run (walkRoots env (dirs (readyToWatch g ps))) (readyToWatch g ps)
       = Done None).
Proof.
  split; [reflexivity|]. split; [exact (flips_Start env New eq_refl)|]. split.
  - intros g ps Hctx Hgate Hcfg Hnw Hwalk.
    destruct (Start_enters_watch env g ps Hctx Hgate Hcfg)
      as [before [Htrace [Hfin Hbefore]]].
    destruct (watch_after_walk env (readyToWatch g ps) Hnw eq_refl Hwalk)
      as [tl [Hwatch [Hwalked [Htl Hend]]]].
    exists before, tl. rewrite Htrace, Hwatch, Hfin.
    split; [reflexivity|]. split; [exact Hbefore|].
    split; [reflexivity|]. split; [exact Hwalked|].
    split; [exact Htl | exact Hend].
  - intros b Hin. split.
    + destruct (flips_Start env New eq_refl) as [pre [post [Ht [Hpre Hpost]]]].
      rewrite Ht, effects_app in Hin. apply in_app_or in Hin.
      destruct Hin as [Hin|Hin].
      * exfalso. apply (no_store_in pre b); [|exact Hin].
        eapply Forall_impl; [|exact Hpre]. intros s [_ Hs]. exact Hs.
      * destruct Hpost as [[-> _]|[f1 [tl [-> [_ [Htl _]]]]]]; [destruct Hin|].
        cbn [effects map fst] in Hin. destruct Hin as [Hin|Hin].
        -- injection Hin as <-. reflexivity.
        -- exfalso. apply (no_store_in tl b); [|exact Hin].
           eapply Forall_impl; [|exact Htl]. intros s [_ [Hs _]]. exact Hs.
    + assert (Hquiet : quiet notWatchWork (Start env) -> False).
      { intros Hq. pose proof (quiet_In _ _ New _ Hq Hin) as Hn.
        discriminate Hn. }
      destruct (ctxValue env) as [| |g] eqn:Hctx;
        try (exfalso; apply Hquiet, Start_quiet_unless; intros; congruence).
      destruct (instanceConfig env) as [err|mounts] eqn:Hcfg;
        [exfalso; apply Hquiet, Start_quiet_unless; intros; congruence|].
      assert (Hclean : Forall (fun m => exists p, CleanPath m = inr p) mounts).
      { destruct (forallb (fun m => match CleanPath m with
                                    | inr _ => true
                                    | inl _ => false
                                    end) mounts) eqn:Hall.
        - rewrite forallb_forall in Hall. apply Forall_forall.
          intros m Hm. specialize (Hall m Hm).
          destruct (CleanPath m) as [|p];
            [discriminate Hall | exists p; reflexivity].
        - exfalso. apply Hquiet, Start_quiet_unless.
          intros g' mounts' _ Hcfg' Hok.
          assert (mounts' = mounts) by congruence. subst mounts'.
          assert (Htrue : forallb (fun m => match CleanPath m with
                                            | inr _ => true
                                            | inl _ => false
                                            end) mounts = true).
          { apply forallb_forall. intros m Hm. rewrite Forall_forall in Hok.
            destruct (Hok m Hm) as [p ->]. reflexivity. }
          congruence. }
      destruct (clean_mounts_are_mountAt mounts Hclean) as [ps ->].
      exists g, ps. split; [reflexivity|].
      assert (Hgate : run (waitForLima (gateSelects env)) (set_guest g New)
                      = Done tt).
      { destruct (run (waitForLima (gateSelects env)) (set_guest g New))
          as [[]| |] eqn:Hg; [reflexivity| |]; exfalso.
        - rewrite (Start_stuck_at_gate env g Hctx) in Hin
            by (intros a H; rewrite Hg in H; discriminate H).
          assert (Hq : quiet notStore (waitForLima (gateSelects env)))
            by (apply quiet_waitForLima; intros; reflexivity).
          pose proof (quiet_In _ _ _ _ Hq Hin) as Hn. discriminate Hn.
        - rewrite (Start_stuck_at_gate env g Hctx) in Hin
            by (intros a H; rewrite Hg in H; discriminate H).
          assert (Hq : quiet notStore (waitForLima (gateSelects env)))
            by (apply quiet_waitForLima; intros; reflexivity).
          pose proof (quiet_In _ _ _ _ Hq Hin) as Hn. discriminate Hn. }
      split; [exact Hgate|]. split; [reflexivity|].
      destruct (Start_enters_watch env g ps Hctx Hgate Hcfg)
        as [before [Htrace [_ Hbefore]]].
      assert (Hwatch : In (StoreAlive b)
                          (effects (trace (watch env) (readyToWatch g ps)))).
      { rewrite Htrace, effects_app in Hin. apply in_app_or in Hin.
        destruct Hin as [Hin|Hin]; [exfalso | exact Hin].
        apply (no_store_in before b); [|exact Hin].
        eapply Forall_impl; [|exact Hbefore]. intros s [_ [Hs _]]. exact Hs. }
      destruct (newWatcher env) as [e|] eqn:Hnw.
      * exfalso.
        assert (Hno : newWatcher env <> None \/
                      run (walkRoots env (dirs (readyToWatch g ps)))
                          (readyToWatch g ps) <> Done None)
          by (left; rewrite Hnw; discriminate).
        exact (no_store_in _ b (watch_without_store env _ Hno) Hwatch).
      * split; [reflexivity|].
        destruct (run (walkRoots env (dirs (readyToWatch g ps)))
                      (readyToWatch g ps)) as [[e|]| |] eqn:Hr;
          try reflexivity; exfalso.
        -- assert (Hno : newWatcher env <> None \/
                         run (walkRoots env (dirs (readyToWatch g ps)))
                             (readyToWatch g ps) <> Done None)
             by (right; rewrite Hr; discriminate).
           exact (no_store_in _ b (watch_without_store env _ Hno) Hwatch).
        -- assert (Hno : newWatcher env <> None \/
                         run (walkRoots env (dirs (readyToWatch g ps)))
                             (readyToWatch g ps) <> Done None)
             by (right; rewrite Hr; discriminate).
           exact (no_store_in _ b (watch_without_store env _ Hno) Hwatch).
        -- assert (Hno : newWatcher env <> None \/
                         run (walkRoots env (dirs (readyToWatch g ps)))
                             (readyToWatch g ps) <> Done None)
             by (right; rewrite Hr; discriminate).
           exact (no_store_in _ b (watch_without_store env _ Hno) Hwatch).
Qed.

Lemma Alive_tracks_registration_witness :
  ctxValue Sample.envRunning = CtxGuest Sample.guestOk /\
  run (waitForLima (gateSelects Sample.envRunning))
      (set_guest Sample.guestOk New) = Done tt /\
  instanceConfig Sample.envRunning = inr (map mountAt ["/Users/u/"]) /\
  newWatcher Sample.envRunning = None /\
  run (walkRoots Sample.envRunning
                 (dirs (readyToWatch Sample.guestOk ["/Users/u/"])))
      (readyToWatch Sample.guestOk ["/Users/u/"]) = Done None /\
  (exists before tl,
     trace (Start Sample.envRunning) New
     = before
       ++ (NewWatcher, readyToWatch Sample.guestOk ["/Users/u/"])
       :: trace (walkRoots Sample.envRunning
                           (dirs (readyToWatch Sample.guestOk ["/Users/u/"])))
                (readyToWatch Sample.guestOk ["/Users/u/"])
       ++ (StoreAlive true,
           set_alive true
             (final (walkRoots Sample.envRunning
                               (dirs (readyToWatch Sample.guestOk ["/Users/u/"])))
                    (readyToWatch Sample.guestOk ["/Users/u/"])))
       :: tl) /\
  Alive (final (Start Sample.envRunning) New) = None.
Proof.
  split; [reflexivity|]. split; [reflexivity|]. split; [reflexivity|].
  split; [reflexivity|]. split; [reflexivity|].
  destruct (proj1 (proj2 (proj2 (Alive_tracks_registration Sample.envRunning)))
              Sample.guestOk ["/Users/u/"]
              eq_refl eq_refl eq_refl eq_refl eq_refl)
    as [before [tl [Htrace [_ [_ [_ [_ Hend]]]]]]].
  split; [exists before, tl; exact Htrace | exact Hend].
Defined.
